(** * calenJO: region detection and calendar reconstruction

    A shallow embedding of the two algorithmic stages of the calendar
    image pipeline:

    - the canvas colour detection strategy ([detectRedRegions],
      [findCluster], [mergeOverlappingRegions]; the OpenCV strategy has a
      textually identical merge step), and
    - the OCR reconstructor [parseCalendarFromOCR] with its helpers
      ([assignWeekIndices], [cleanEventText], [extractTimeFromText]), in the
      version that carries the inline month-tracking state machine.

    JavaScript strings are sequences of UTF-16 code units, numbers that
    hold pixel coordinates, days, months and years are integers, a [Set]
    of numbers is a [gset], the [Map] of week indices is a [gmap]. *)

From Stdlib Require Import ZArith List Bool Lia String Ascii Sorted.
From Stdlib Require Import Numbers.DecimalString.
From stdpp Require Import base gmap list.

Import ListNotations.
Local Open Scope Z_scope.

(** ** JavaScript strings as UTF-16 code units *)

Module JS.

Definition jsstring := list Z.

(** A literal written in ASCII, as code units. *)
Fixpoint lit (s : string) : jsstring :=
  match s with
  | EmptyString => []
  | String c rest => Z.of_nat (nat_of_ascii c) :: lit rest
  end.

Definition str_eqb (a b : jsstring) : bool := bool_decide (a = b).

(** [\d] *)
Definition isDigit (c : Z) : bool := (48 <=? c) && (c <=? 57).

(** [\w], without the [u] and [i] flags: [A-Za-z0-9_] *)
Definition isWordChar (c : Z) : bool :=
  isDigit c || ((65 <=? c) && (c <=? 90)) || ((97 <=? c) && (c <=? 122))
  || (c =? 95).

(** [\s], which is also the set removed by [String.prototype.trim]:
    WhiteSpace and LineTerminator code units. *)
Definition isSpace (c : Z) : bool :=
  ((9 <=? c) && (c <=? 13)) || (c =? 32) || (c =? 160) || (c =? 5760)
  || ((8192 <=? c) && (c <=? 8202)) || (c =? 8232) || (c =? 8233)
  || (c =? 8239) || (c =? 8287) || (c =? 12288) || (c =? 65279).

Fixpoint trimStart (s : jsstring) : jsstring :=
  match s with
  | c :: rest => if isSpace c then trimStart rest else s
  | [] => []
  end.

Definition trimEnd (s : jsstring) : jsstring := rev (trimStart (rev s)).

Definition trim (s : jsstring) : jsstring := trimEnd (trimStart s).

(** [parseInt(s, 10)] on a string of decimal digits. *)
Definition parseDigits (s : jsstring) : Z :=
  fold_left (fun acc c => 10 * acc + (c - 48)) s 0.

(** [Number.prototype.toString()] on an integer (below 10^21 in absolute
    value, where JavaScript still prints all digits). *)
Definition numToString (n : Z) : jsstring :=
  lit (NilZero.string_of_int (Z.to_int n)).

(** [s.padStart(2, '0')] *)
Definition padStart2 (s : jsstring) : jsstring :=
  match s with
  | [] => [48; 48]
  | [c] => [48; c]
  | _ => s
  end.

(** [Array.prototype.sort(cmp)]: a stable sort.  On a list where the
    comparator is consistent every stable sort returns the same list; where it
    is not, the result depends on the engine, and statements about such inputs
    below hold for every rearrangement of the input. *)
Section Sort.
Context {A : Type} (cmp : A -> A -> Z).

Fixpoint sortInsert (a : A) (l : list A) : list A :=
  match l with
  | [] => [a]
  | e :: rest => if cmp a e <? 0 then a :: e :: rest else e :: sortInsert a rest
  end.

Definition sort (l : list A) : list A :=
  fold_left (fun acc a => sortInsert a acc) l [].
End Sort.

End JS.

Import JS.

(** ** Region detection: the canvas strategy *)

Module Detect.

Record Region := mkRegion { x : Z; y : Z; width : Z; height : Z }.

(** [ImageData]: [data] holds RGBA samples, row-major. *)
Record ImageData := mkImage { imgWidth : Z; imgHeight : Z; data : list Z }.

(** [data[i]]: [undefined] outside the array. *)
Definition sample (d : list Z) (i : Z) : option Z :=
  if i <? 0 then None else d !! Z.to_nat i.

(** [r > 150 && g < 100 && b < 100]; a comparison with [undefined] is
    false. *)
Definition isRed (r g b : option Z) : bool :=
  match r, g, b with
  | Some r, Some g, Some b => (150 <? r) && (g <? 100) && (b <? 100)
  | _, _, _ => false
  end.

Definition isRedAt (img : ImageData) (idx : Z) : bool :=
  isRed (sample (data img) (idx * 4)) (sample (data img) (idx * 4 + 1))
        (sample (data img) (idx * 4 + 2)).

(** State of the flood fill in [findCluster]: the head of [stack] is the
    top of the JavaScript array used as a stack. *)
Record fill := mkFill {
  stack : list (Z * Z);
  visited : gset Z;
  minX : Z; maxX : Z; minY : Z; maxY : Z
}.

Definition outOfImage (img : ImageData) (px py : Z) : bool :=
  (px <? 0) || (imgWidth img <=? px) || (py <? 0) || (imgHeight img <=? py).

(** One iteration of [while (stack.length > 0)]; [None] when the loop
    condition fails. *)
Definition fillStep (img : ImageData) (st : fill) : option fill :=
  match stack st with
  | [] => None
  | (px, py) :: rest =>
    let idx := py * imgWidth img + px in
    if bool_decide (idx ∈ visited st) || outOfImage img px py then
      Some (mkFill rest (visited st) (minX st) (maxX st) (minY st) (maxY st))
    else if negb (isRedAt img idx) then
      Some (mkFill rest (visited st) (minX st) (maxX st) (minY st) (maxY st))
    else
      Some (mkFill
              ((px, py + 1) :: (px, py - 1) :: (px + 1, py) :: (px - 1, py) :: rest)
              ({[ idx ]} ∪ visited st)
              (Z.min (minX st) px) (Z.max (maxX st) px)
              (Z.min (minY st) py) (Z.max (maxY st) py))
  end.

Fixpoint fillLoop (fuel : nat) (img : ImageData) (st : fill) : option fill :=
  match fillStep img st with
  | None => Some st
  | Some st' =>
    match fuel with
    | O => None
    | S f => fillLoop f img st'
    end
  end.

Definition findCluster (fuel : nat) (img : ImageData) (vis : gset Z)
    (startX startY : Z) : option (Region * gset Z) :=
  match fillLoop fuel img (mkFill [(startX, startY)] vis startX startX startY startY) with
  | Some st =>
    Some (mkRegion (minX st) (minY st)
                   (maxX st - minX st + 1) (maxY st - minY st + 1),
          visited st)
  | None => None
  end.

(** The values taken by [for (let v = 0; v < n; v += 2)]. *)
Definition stride2 (n : Z) : list Z :=
  map (fun k => 2 * Z.of_nat k) (seq 0 (Z.to_nat ((n + 1) / 2))).

Definition scanPoints (img : ImageData) : list (Z * Z) :=
  flat_map (fun py => map (fun px => (px, py)) (stride2 (imgWidth img)))
           (stride2 (imgHeight img)).

Definition scanStep (fuel : nat) (img : ImageData)
    (acc : option (list Region * gset Z)) (p : Z * Z)
    : option (list Region * gset Z) :=
  match acc with
  | None => None
  | Some (regions, vis) =>
    let '(px, py) := p in
    let idx := py * imgWidth img + px in
    if isRedAt img idx && negb (bool_decide (idx ∈ vis)) then
      match findCluster fuel img vis px py with
      | None => None
      | Some (region, vis') =>
        if (5 <? width region) && (5 <? height region)
        then Some (regions ++ [region], vis')
        else Some (regions, vis')
      end
    else Some (regions, vis)
  end.

Definition regionsOverlap (r1 r2 : Region) : bool :=
  negb ((x r1 + width r1 <? x r2) || (x r2 + width r2 <? x r1)
        || (y r1 + height r1 <? y r2) || (y r2 + height r2 <? y r1)).

Definition mergeTwoRegions (r1 r2 : Region) : Region :=
  let mnX := Z.min (x r1) (x r2) in
  let mnY := Z.min (y r1) (y r2) in
  let mxX := Z.max (x r1 + width r1) (x r2 + width r2) in
  let mxY := Z.max (y r1 + height r1) (y r2 + height r2) in
  mkRegion mnX mnY (mxX - mnX) (mxY - mnY).

(** Body of [for (let j = 0; j < regions.length; j++)]: the accumulator
    is [(current, used, mergedNew)]. *)
Definition mergeInner (regions : list Region)
    (acc : Region * gset nat * bool) (j : nat) : Region * gset nat * bool :=
  let '(current, used, mergedNew) := acc in
  if bool_decide (j ∈ used) then acc
  else match regions !! j with
       | Some other =>
         if regionsOverlap current other
         then (mergeTwoRegions current other, {[ j ]} ∪ used, true)
         else acc
       | None => acc
       end.

(** One pass of [while (mergedNew)]. *)
Definition mergePass (regions : list Region) (current : Region)
    (used : gset nat) : Region * gset nat * bool :=
  fold_left (mergeInner regions) (seq 0 (length regions)) (current, used, false).

Fixpoint mergeWhile (fuel : nat) (regions : list Region) (current : Region)
    (used : gset nat) : option (Region * gset nat) :=
  match fuel with
  | O => None
  | S f =>
    let '(current', used', mergedNew) := mergePass regions current used in
    if mergedNew then mergeWhile f regions current' used'
    else Some (current', used')
  end.

(** Body of [for (let i = 0; i < regions.length; i++)]. *)
Definition mergeOuter (fuel : nat) (regions : list Region)
    (acc : option (list Region * gset nat)) (i : nat)
    : option (list Region * gset nat) :=
  match acc with
  | None => None
  | Some (merged, used) =>
    if bool_decide (i ∈ used) then Some (merged, used)
    else match regions !! i with
         | None => Some (merged, used)
         | Some seed =>
           match mergeWhile fuel regions seed ({[ i ]} ∪ used) with
           | None => None
           | Some (current, used') => Some (merged ++ [current], used')
           end
         end
  end.

Definition mergeOverlappingRegionsFuel (fuel : nat) (regions : list Region)
    : option (list Region) :=
  match regions with
  | [] => Some []
  | _ =>
    match fold_left (mergeOuter fuel regions) (seq 0 (length regions)) (Some ([], ∅)) with
    | Some (merged, _) => Some merged
    | None => None
    end
  end.

(** Enough iterations for every [while (mergedNew)] loop over [regions]. *)
Definition mergeFuel (regions : list Region) : nat := S (length regions).

Definition mergeOverlappingRegions (regions : list Region) : option (list Region) :=
  mergeOverlappingRegionsFuel (mergeFuel regions) regions.

(** Enough iterations for every flood fill over [img]. *)
Definition fillFuel (img : ImageData) : nat :=
  S (4 * (Z.to_nat (imgWidth img) * Z.to_nat (imgHeight img))).

(** The indices [y * width + x] of the pixels of [img]. *)
Definition pixelIndices (img : ImageData) : gset Z :=
  list_to_set (seqZ 0 (Z.of_nat (Z.to_nat (imgWidth img) * Z.to_nat (imgHeight img)))).

(** What is left to do in a flood fill: four pushes for each pixel not yet
    visited, and the stack. *)
Definition fillMeasure (img : ImageData) (st : fill) : nat :=
  4 * size (pixelIndices img ∖ visited st) + length (stack st).

(** The regions of [regions] not yet merged into an output region. *)
Definition unusedCount (regions : list Region) (used : gset nat) : nat :=
  size (list_to_set (seq 0 (length regions)) ∖ used : gset nat).

Definition detectRedRegions (img : ImageData) : option (list Region) :=
  match fold_left (scanStep (fillFuel img) img) (scanPoints img) (Some ([], ∅)) with
  | Some (regions, _) => mergeOverlappingRegions regions
  | None => None
  end.

End Detect.

(** ** Calendar reconstruction: [parseCalendarFromOCR] *)

Module Parser.

Import Detect.

Record OCRResult := mkOCR { text : jsstring; region : Region; confidence : Z }.

Inductive CalendarType := standard | jojo.

(** *** [Date]: a civil date in local time

    [new Date(year, monthIndex, day)] builds the day number of the first of
    the (normalised) month, adds [day - 1], and reads the civil date back;
    a year in 0..99 means 1900 + year.  The day numbers are those of the
    proleptic Gregorian calendar, counted from 1 January 1970; the limits of
    the time value (about 270000 years either way) are left out. *)
Record JSDate := mkDate { getFullYear : Z; getMonth : Z; getDate : Z }.

Definition daysFromCivil (yr mon d : Z) : Z :=
  let y' := if mon <=? 2 then yr - 1 else yr in
  let era := y' / 400 in
  let yoe := y' - era * 400 in
  let doy := (153 * (if 2 <? mon then mon - 3 else mon + 9) + 2) / 5 + d - 1 in
  let doe := yoe * 365 + yoe / 4 - yoe / 100 + doy in
  era * 146097 + doe - 719468.

Definition civilFromDays (z : Z) : JSDate :=
  let z' := z + 719468 in
  let era := z' / 146097 in
  let doe := z' - era * 146097 in
  let yoe := (doe - doe / 1460 + doe / 36524 - doe / 146096) / 365 in
  let doy := doe - (365 * yoe + yoe / 4 - yoe / 100) in
  let mp := (5 * doy + 2) / 153 in
  let d := doy - (153 * mp + 2) / 5 + 1 in
  let mon := if mp <? 10 then mp + 3 else mp - 9 in
  let yr := yoe + era * 400 + (if mon <=? 2 then 1 else 0) in
  mkDate yr (mon - 1) d.

Definition newDate (year monthIndex day : Z) : JSDate :=
  let yr := if (0 <=? year) && (year <=? 99) then 1900 + year else year in
  let ym := yr + monthIndex / 12 in
  let mn := monthIndex mod 12 in
  civilFromDays (daysFromCivil ym (mn + 1) 1 + day - 1).

(** *** Results *)

Record CalendarEvent := mkEvent {
  id : jsstring;
  title : jsstring;
  date : JSDate;
  startTime : option jsstring;
  endTime : option jsstring
}.

Record ParsedCalendarData := mkParsed {
  year : Z;
  month : Z;
  events : list CalendarEvent
}.

Record DateInfo := mkDateInfo {
  day : Z;
  weekIndex : Z;
  dateY : Z;
  resultIndex : nat
}.

(** [Date.now()] and [Math.random().toString(36).substr(2, 9)], as read
    by the k-th event that is created. *)
Record entropy := mkEntropy { now : nat -> Z; random36 : nat -> jsstring }.

(** *** Text helpers *)

(** First match of [/\b(\d{1,2})\b/] from the current position, as
    [(before, token, after)]; [prevWord] tells whether the code unit before
    the position is a word character. *)
Fixpoint dayTokenFrom (prevWord : bool) (s : jsstring)
    : option (jsstring * jsstring * jsstring) :=
  match s with
  | [] => None
  | c :: rest =>
    let here :=
      if negb prevWord && isDigit c then
        match rest with
        | [] => Some ([c], [])
        | c2 :: rest2 =>
          if isDigit c2 then
            match rest2 with
            | [] => Some ([c; c2], [])
            | c3 :: _ => if isWordChar c3 then None else Some ([c; c2], rest2)
            end
          else if isWordChar c2 then None else Some ([c], rest)
        end
      else None in
    match here with
    | Some (tok, after) => Some ([], tok, after)
    | None =>
      match dayTokenFrom (isWordChar c) rest with
      | Some (before, tok, after) => Some (c :: before, tok, after)
      | None => None
      end
    end
  end.

(** [text.match(/\b(\d{1,2})\b/)] *)
Definition matchDay (s : jsstring) : option (jsstring * jsstring * jsstring) :=
  dayTokenFrom false s.

(** [text.replace(/\b\d{1,2}\b/, '')] *)
Definition removeDay (s : jsstring) : jsstring :=
  match matchDay s with
  | Some (before, _, after) => before ++ after
  | None => s
  end.

(** [nextText.match(/^\d{1,2}$/)] *)
Definition isJustANumber (s : jsstring) : bool :=
  match s with
  | [c] => isDigit c
  | [c; c2] => isDigit c && isDigit c2
  | _ => false
  end.

(** [/C/i.test(text)] *)
Definition hasC (s : jsstring) : bool :=
  existsb (fun c => (c =? 67) || (c =? 99)) s.

(** [/[🌙☾🌛🌜]/u.test(text)]: U+263E, or the surrogate pair of U+1F319,
    U+1F31B or U+1F31C. *)
Fixpoint hasMoon (s : jsstring) : bool :=
  match s with
  | [] => false
  | c :: rest =>
    (c =? 9790)
    || ((c =? 55356)
        && match rest with
           | c2 :: _ => (c2 =? 57113) || (c2 =? 57115) || (c2 =? 57116)
           | [] => false
           end)
    || hasMoon rest
  end.

(** [/[^\w\s\-:]/] *)
Definition isSpecialChar (c : Z) : bool :=
  negb (isWordChar c || isSpace c || (c =? 45) || (c =? 58)).

(** [.replace(/\s+/g, ' ')]; [inRun] tells whether the previous code unit
    was white space. *)
Fixpoint collapseSpaces (inRun : bool) (s : jsstring) : jsstring :=
  match s with
  | [] => []
  | c :: rest =>
    if isSpace c then
      if inRun then collapseSpaces true rest else 32 :: collapseSpaces true rest
    else c :: collapseSpaces false rest
  end.

Definition cleanEventText (s : jsstring) : jsstring :=
  trim (collapseSpaces false (List.filter (fun c => negb (isSpecialChar c)) s)).

(** *** Times *)

(** A match of [/(\d{1,2}):(\d{2})\s*(AM|PM|am|pm)?/gi]: the groups. *)
Record timeMatch := mkTimeMatch {
  hoursText : jsstring;
  minutesText : jsstring;
  periodText : option jsstring
}.

(** [(\d{1,2}):(\d{2})] at the start of [s]: groups and the rest. *)
Definition timeHead (s : jsstring) : option (jsstring * jsstring * jsstring) :=
  match s with
  | d1 :: c2 :: rest1 =>
    if isDigit d1 then
      if isDigit c2 then
        match rest1 with
        | c3 :: m1 :: m2 :: rest =>
          if (c3 =? 58) && isDigit m1 && isDigit m2
          then Some ([d1; c2], [m1; m2], rest) else None
        | _ => None
        end
      else if c2 =? 58 then
        match rest1 with
        | m1 :: m2 :: rest =>
          if isDigit m1 && isDigit m2 then Some ([d1], [m1; m2], rest) else None
        | _ => None
        end
      else None
    else None
  | _ => None
  end.

(** [\s*(AM|PM|am|pm)?] with the [i] flag: the optional group and the
    rest. *)
Definition timeTail (s : jsstring) : option jsstring * jsstring :=
  let after := trimStart s in
  match after with
  | a :: m :: rest =>
    if ((a =? 65) || (a =? 97) || (a =? 80) || (a =? 112))
       && ((m =? 77) || (m =? 109))
    then (Some [a; m], rest) else (None, after)
  | _ => (None, after)
  end.

(** The regular expression at the start of [s]: the match and the number
    of code units it spans. *)
Definition matchTimeAt (s : jsstring) : option (timeMatch * nat) :=
  match timeHead s with
  | None => None
  | Some (h, m, rest) =>
    let '(p, rest') := timeTail rest in
    Some (mkTimeMatch h m p, (length s - length rest')%nat)
  end.

(** All matches from left to right, and the text with every match removed;
    [skip] counts the code units of the current match still to pass. *)
Fixpoint timeScan (skip : nat) (s : jsstring) : list timeMatch * jsstring :=
  match s with
  | [] => ([], [])
  | c :: rest =>
    match skip with
    | S k => timeScan k rest
    | O =>
      match matchTimeAt s with
      | Some (m, n) =>
        let '(ms, out) := timeScan (n - 1) rest in (m :: ms, out)
      | None =>
        let '(ms, out) := timeScan 0 rest in (ms, c :: out)
      end
    end
  end.

(** [[...text.matchAll(timeRegex)]] *)
Definition matchAllTimes (s : jsstring) : list timeMatch := fst (timeScan 0 s).

(** [.replace(/\d{1,2}:\d{2}\s*(AM|PM|am|pm)?/gi, '')] *)
Definition removeTimes (s : jsstring) : jsstring := snd (timeScan 0 s).

(** [match[3]?.toUpperCase()] compared with ['PM'] and ['AM'] *)
Definition isPM (p : option jsstring) : bool :=
  match p with
  | Some (a :: _) => (a =? 80) || (a =? 112)
  | _ => false
  end.

Definition isAM (p : option jsstring) : bool :=
  match p with
  | Some (a :: _) => (a =? 65) || (a =? 97)
  | _ => false
  end.

(** The callback of [matches.map]. *)
Definition formatTime (m : timeMatch) : jsstring :=
  let hours := parseDigits (hoursText m) in
  let hours := if isPM (periodText m) && negb (hours =? 12) then hours + 12 else hours in
  let hours := if isAM (periodText m) && (hours =? 12) then 0 else hours in
  padStart2 (numToString hours) ++ [58] ++ minutesText m.

Definition extractTimeFromText (s : jsstring)
    : option (jsstring * option jsstring) :=
  match map formatTime (matchAllTimes s) with
  | [] => None
  | t0 :: rest => Some (t0, head rest)
  end.

(** *** Week rows *)

(** [rows.findIndex(p)]: -1 when no element satisfies [p]. *)
Fixpoint findIndexFrom {A : Type} (p : A -> bool) (l : list A) (i : Z) : Z :=
  match l with
  | [] => -1
  | a :: rest => if p a then i else findIndexFrom p rest (i + 1)
  end.

Definition findIndex {A : Type} (p : A -> bool) (l : list A) : Z :=
  findIndexFrom p l 0.

(** The loop that collects the distinct rows from the sorted Y values. *)
Definition pushRow (rows : list Z) (yv : Z) : list Z :=
  match last rows with
  | Some lastRow => if 50 <=? Z.abs (yv - lastRow) then rows ++ [yv] else rows
  | None => rows
  end.

Definition collectRows (ys : list Z) : list Z :=
  match ys with
  | [] => []
  | y0 :: rest => fold_left pushRow rest [y0]
  end.

Definition hasDayToken (r : OCRResult) : bool :=
  match matchDay (text r) with Some _ => true | None => false end.

(** Placeholder entries that only give the grid its rows: [x === 0] and
    [text === '1']. *)
Definition isDummy (r : OCRResult) : bool :=
  (x (region r) =? 0) && str_eqb (text r) [49].

Definition weekStep (rows : list Z) (weekOffset : Z)
    (acc : gmap nat DateInfo * nat) (r : OCRResult) : gmap nat DateInfo * nat :=
  let '(dateMap, resultIndex) := acc in
  if isDummy r then (dateMap, S resultIndex)
  else
    match matchDay (text r) with
    | Some (_, tok, _) =>
      let rowIndex := findIndex (fun yv => Z.abs (yv - y (region r)) <? 50) rows in
      let wk := Z.max 0 (rowIndex - weekOffset) in
      (<[ resultIndex := mkDateInfo (parseDigits tok) wk (y (region r)) resultIndex ]> dateMap,
       S resultIndex)
    | None => (dateMap, S resultIndex)
    end.

Definition assignWeekIndices (results : list OCRResult) : gmap nat DateInfo :=
  let yPositions := map (fun r => y (region r)) (List.filter hasDayToken results) in
  match yPositions with
  | [] => ∅
  | _ =>
    let rows := collectRows (sort Z.sub yPositions) in
    let n := Z.of_nat (length rows) in
    let weekOffset := if 6 <? n then n - 6 else 0 in
    fst (fold_left (weekStep rows weekOffset) results (∅, O))
  end.

(** *** The month-tracking state *)

Record tracker := mkTracker {
  lastDay : Z;
  currentWeek : Z;
  hasTransitionedToCurrent : bool;
  hasBeenInCurrentMonth : bool;
  isInNextMonth : bool;
  hasSeenEndOfMonth : bool
}.

Definition initialTracker : tracker := mkTracker 0 (-1) false false false false.

(** The rule chain for one day number: the month offset and the state
    after [lastDay = day]. *)
Definition detectMonth (daysInMonth : Z) (t : tracker) (d wk : Z) : Z * tracker :=
  let isNewWeek := negb (wk =? currentWeek t) in
  let cw := if isNewWeek then wk else currentWeek t in
  let ld := lastDay t in
  let tc := hasTransitionedToCurrent t in
  let bc := hasBeenInCurrentMonth t in
  let nx := isInNextMonth t in
  let se := hasSeenEndOfMonth t in
  if (wk =? 0) && (25 <=? d) && (ld =? 0) && negb bc then
    (-1, mkTracker d cw tc bc nx se)
  else if (wk =? 0) && (28 <=? ld) && (d <=? 5) && negb tc then
    (0, mkTracker d cw true true nx se)
  else if (3 <=? wk) && (25 <=? ld) && (d <=? 5) then
    (1, mkTracker d cw tc bc true se)
  else if (4 <=? wk) && (d <=? 10) && se then
    (1, mkTracker d cw tc bc true se)
  else if (4 <=? wk) && (d <=? 5) && (ld =? 0) then
    (1, mkTracker d cw tc bc true se)
  else if (4 <=? wk) && (daysInMonth <? d) then
    (1, mkTracker d cw tc bc true se)
  else if isNewWeek && (25 <=? d) && bc && (3 <=? wk) then
    (0, mkTracker d cw true bc nx (if 24 <=? d then true else se))
  else if (wk =? 0) && (d =? ld + 1) && (25 <=? d) then
    (-1, mkTracker d cw tc bc nx se)
  else if nx && (d =? ld + 1) then
    (1, mkTracker d cw tc bc nx se)
  else if (d =? ld + 1) || ((ld =? 0) && (d =? 1)) then
    let enter := negb bc && (0 <? wk) in
    (0, mkTracker d cw (if enter then true else tc) (if enter then true else bc) nx
                  (if (24 <=? d) && (3 <=? wk) then true else se))
  else if negb bc && (5 <? d) && (d <? 25) then
    (0, mkTracker d cw true true nx se)
  else
    (0, mkTracker d cw tc bc nx se).

(** [actualYear] and [actualMonth] from the offset. *)
Definition actualYearMonth (yr mon monthOffset : Z) : Z * Z :=
  let actualMonth := mon + monthOffset in
  if actualMonth =? 0 then (yr - 1, 12)
  else if actualMonth =? 13 then (yr + 1, 1)
  else (yr, actualMonth).

(** *** Titles *)

(** The title found in the fragment itself. *)
Definition ownTitle (txt : jsstring) : jsstring :=
  let afterDate := trim (removeDay txt) in
  if (1 <? length afterDate)%nat then cleanEventText afterDate else [].

(** The title taken from the next fragment, in standard mode. *)
Definition nearbyTitle (result nextResult : OCRResult) : jsstring :=
  let yDiff := Z.abs (y (region nextResult) - y (region result)) in
  let xDiff := Z.abs (x (region nextResult) - x (region result)) in
  let isSameRow := yDiff <? 60 in
  let isDirectlyBelow := (0 <? yDiff) && (yDiff <? 100) && (xDiff <? 50) in
  let isNearbyX := xDiff <? 150 in
  let isNotJustANumber := negb (isJustANumber (text nextResult)) in
  if (isSameRow || isDirectlyBelow) && isNearbyX && isNotJustANumber
  then cleanEventText (text nextResult) else [].

Definition isEmpty (s : jsstring) : bool :=
  match s with [] => true | _ => false end.

Definition resolveTitle (calendarType : CalendarType)
    (sortedResults : list OCRResult) (i : nat) (result : OCRResult) : jsstring :=
  let eventTitle := ownTitle (text result) in
  let eventTitle :=
    match calendarType, sortedResults !! S i with
    | standard, Some nextResult =>
      if isEmpty eventTitle then nearbyTitle result nextResult else eventTitle
    | _, _ => eventTitle
    end in
  match calendarType with
  | jojo =>
    if hasC (text result) || hasMoon (text result) then lit "nightshift"
    else if isEmpty eventTitle then lit "dayshift" else eventTitle
  | standard => eventTitle
  end.

(** *** The main loop *)

Record loopState := mkLoop { trk : tracker; found : list CalendarEvent }.

Definition isDuplicate (evs : list CalendarEvent) (d actualMonth actualYear : Z)
    (eventTitle : jsstring) : bool :=
  existsb (fun e =>
             (getDate (date e) =? d) && (getMonth (date e) =? actualMonth - 1)
             && (getFullYear (date e) =? actualYear)
             && str_eqb (title e) eventTitle) evs.

Definition makeId (ent : entropy) (k : nat) (d actualMonth actualYear : Z) : jsstring :=
  lit "event-" ++ numToString d ++ lit "-" ++ numToString actualMonth
  ++ lit "-" ++ numToString actualYear ++ lit "-" ++ numToString (now ent k)
  ++ lit "-" ++ random36 ent k.

Definition makeEvent (ent : entropy) (k : nat) (d actualMonth actualYear : Z)
    (eventTitle : jsstring) : CalendarEvent :=
  let ident := makeId ent k d actualMonth actualYear in
  let when := newDate actualYear (actualMonth - 1) d in
  match extractTimeFromText eventTitle with
  | Some (t0, t1) => mkEvent ident (trim (removeTimes eventTitle)) when (Some t0) t1
  | None => mkEvent ident eventTitle when None None
  end.

(** Body of [for (let i = 0; i < sortedResults.length; i++)]. *)
Definition loopBody (ent : entropy) (yr mon daysInMonth : Z)
    (calendarType : CalendarType) (sortedResults : list OCRResult)
    (datesWithWeeks : gmap nat DateInfo) (st : loopState) (i : nat) : loopState :=
  match sortedResults !! i with
  | None => st
  | Some result =>
    match matchDay (text result) with
    | None => st
    | Some (_, tok, _) =>
      let d := parseDigits tok in
      if (d <? 1) || (31 <? d) then st
      else
        match datesWithWeeks !! i with
        | None => st
        | Some dateInfo =>
          let '(monthOffset, trk') := detectMonth daysInMonth (trk st) d (weekIndex dateInfo) in
          let '(actualYear, actualMonth) := actualYearMonth yr mon monthOffset in
          let eventTitle := resolveTitle calendarType sortedResults i result in
          if isEmpty eventTitle then mkLoop trk' (found st)
          else if isDuplicate (found st) d actualMonth actualYear eventTitle
          then mkLoop trk' (found st)
          else mkLoop trk' (found st ++
                 [makeEvent ent (length (found st)) d actualMonth actualYear eventTitle])
        end
    end
  end.

(** The comparator of the canonical ordering. *)
Definition compareResults (a b : OCRResult) : Z :=
  let yDiff := y (region a) - y (region b) in
  if 50 <=? Z.abs yDiff then yDiff else x (region a) - x (region b).

Definition parseCalendarFromOCR (ent : entropy) (ocrResults : list OCRResult)
    (yr mon : Z) (calendarType : CalendarType) : ParsedCalendarData :=
  let daysInMonth := getDate (newDate yr mon 0) in
  let sortedResults := sort compareResults ocrResults in
  let datesWithWeeks := assignWeekIndices sortedResults in
  let final :=
    fold_left (loopBody ent yr mon daysInMonth calendarType sortedResults datesWithWeeks)
              (seq 0 (length sortedResults)) (mkLoop initialTracker []) in
  mkParsed yr mon (found final).

(** What a call can do: return a value, or throw. *)
Inductive outcome (A : Type) :=
| Returned (a : A)
| Threw (message : jsstring).
Arguments Returned {A} a.
Arguments Threw {A} message.

(** A call of [parseCalendarFromOCR]: the body has no [throw] and calls
    nothing that throws on well-typed arguments. *)
Definition callParseCalendarFromOCR (ent : entropy) (ocrResults : list OCRResult)
    (yr mon : Z) (calendarType : CalendarType) : outcome ParsedCalendarData :=
  Returned (parseCalendarFromOCR ent ocrResults yr mon calendarType).

End Parser.

(** ** The vocabulary of the specification *)

Module Spec.

Import Detect Parser.

(** What two runs are compared on: everything but the identifier. *)
Definition eventView (e : CalendarEvent)
    : JSDate * jsstring * option jsstring * option jsstring :=
  (date e, title e, startTime e, endTime e).

Definition eventViews (data : ParsedCalendarData) :=
  map eventView (events data).

(** The month before and the month after a requested (year, month). *)
Definition previousMonth (yr mon : Z) : Z * Z :=
  if mon =? 1 then (yr - 1, 12) else (yr, mon - 1).

Definition nextMonth (yr mon : Z) : Z * Z :=
  if mon =? 12 then (yr + 1, 1) else (yr, mon + 1).

Definition pair_eqb (p q : Z * Z) : bool :=
  (fst p =? fst q) && (snd p =? snd q).

(** The (year, month) of a date is the requested one or a neighbour. *)
Definition withinOneMonth (yr mon : Z) (d : JSDate) : bool :=
  let ym := (getFullYear d, getMonth d + 1) in
  pair_eqb ym (previousMonth yr mon) || pair_eqb ym (yr, mon)
  || pair_eqb ym (nextMonth yr mon).




(** The canonical order as claimed: of two fragments whose Y differ by
    more than 50 the one with the smaller Y comes first, and of two fragments
    within 50 in Y the one with the smaller X comes first. *)
Definition canonicalOrderClaim (l : list OCRResult) : Prop :=
  forall i j a b, l !! i = Some a -> l !! j = Some b ->
    (50 < Z.abs (y (region a) - y (region b)) ->
     y (region a) < y (region b) -> (i < j)%nat)
    /\ (Z.abs (y (region a) - y (region b)) <= 50 ->
        x (region a) < x (region b) -> (i < j)%nat).

(** Two fragments are in the same row for the comparator. *)
Definition sameRow (a b : OCRResult) : Prop :=
  Z.abs (y (region a) - y (region b)) < 50.

(** The rows of a fragment list are apart: being in the same row is
    transitive. *)
Definition rowsApart (l : list OCRResult) : Prop :=
  forall a b c, a ∈ l -> b ∈ l -> c ∈ l -> sameRow a b -> sameRow b c -> sameRow a c.


(** Two regions overlap or touch: closed intervals on both axes. *)
Definition touches (r1 r2 : Region) : bool :=
  (x r1 <=? x r2 + width r2) && (x r2 <=? x r1 + width r1)
  && (y r1 <=? y r2 + height r2) && (y r2 <=? y r1 + height r1).

End Spec.

(** ** Concrete inputs used by the scenarios below *)

Module Scenarios.

Import Detect Parser.

(** Three boxes: [boxA] and [boxB] touch at one corner, [boxM] lies apart
    from both and inside their union. *)
Definition boxM : Region := mkRegion 20 0 7 7.
Definition boxA : Region := mkRegion 0 2 7 32.
Definition boxB : Region := mkRegion 7 34 34 7.

Definition insideBox (r : Region) (px py : Z) : bool :=
  (x r <=? px) && (px <? x r + width r) && (y r <=? py) && (py <? y r + height r).

(** A 41 x 41 image, red exactly on the three boxes. *)
Definition cornerPixel (px py : Z) : list Z :=
  if insideBox boxM px py || insideBox boxA px py || insideBox boxB px py
  then [200; 0; 0; 255] else [255; 255; 255; 255].

Definition cornerImage : ImageData :=
  mkImage 41 41
    (flat_map (fun py => flat_map (fun px => cornerPixel (Z.of_nat px) (Z.of_nat py)) (seq 0 41))
              (seq 0 41)).

(** A 2 x 2 image with one red pixel. *)
Definition tinyImage : ImageData :=
  mkImage 2 2 [200; 0; 0; 255; 0; 0; 0; 255; 0; 0; 0; 255; 0; 0; 0; 255].

Definition fixedEntropy : entropy :=
  mkEntropy (fun _ => 1700000000000) (fun _ => lit "k3j9x0q2m").

Definition otherEntropy : entropy :=
  mkEntropy (fun k => 1800000000000 + Z.of_nat k) (fun _ => lit "zzzzzzzzz").

(** A recognised fragment, as the tests build it. *)
Definition fragment (s : string) (px py : Z) : OCRResult :=
  mkOCR (lit s) (mkRegion px py 50 50) 90.

(** A January request whose fifth row reads 1, 28, 29. *)
Definition januaryTail : list OCRResult :=
  [fragment "1" 0 0; fragment "1" 0 50; fragment "1" 0 100; fragment "1" 0 150;
   fragment "1 aa" 100 200; fragment "28 bb" 150 200; fragment "29 cc" 200 200].

(** Shift mode: a day with free text, a day marked C, a bare day. *)
Definition shiftRow : list OCRResult :=
  [fragment "15 Meeting" 100 100; fragment "16 C" 200 100; fragment "17" 300 100].

(** Three fragments, each within 50 of the next in Y, the first and the
    last 80 apart, with X falling as Y rises. *)
Definition staircase : list OCRResult :=
  [fragment "1 a" 100 0; fragment "2 b" 50 40; fragment "3 c" 0 80].

(** Two fragments exactly 50 apart in Y. *)
Definition fiftyApart : list OCRResult :=
  [fragment "1 a" 100 0; fragment "2 b" 0 50].

(** Six placeholder rows at the usual calendar positions. *)
Definition calendarStructure : list OCRResult :=
  [fragment "1" 0 150; fragment "1" 0 200; fragment "1" 0 250;
   fragment "1" 0 300; fragment "1" 0 350; fragment "1" 0 400].

End Scenarios.

(** ** The Gregorian calendar, to state what [Date] gives *)

Module Calendar.

Import Parser Spec.




End Calendar.

(** ** Geometry of regions *)

Module Geometry.

Import Detect.

(** [inner] lies within [outer]. *)
Definition contains (outer inner : Region) : Prop :=
  x outer <= x inner /\ y outer <= y inner
  /\ x inner + width inner <= x outer + width outer
  /\ y inner + height inner <= y outer + height outer.

(** [r] lies within the image. *)
Definition insideImage (img : ImageData) (r : Region) : Prop :=
  0 <= x r /\ 0 <= y r
  /\ x r + width r <= imgWidth img /\ y r + height r <= imgHeight img.

(** What the detector promises of a region: inside the image, and past
    the noise filter. *)
Definition goodRegion (img : ImageData) (r : Region) : Prop :=
  insideImage img r /\ 5 < width r /\ 5 < height r.

(** The index of pixel [(px, py)] in the visited set. *)
Definition pixelIndex (img : ImageData) (px py : Z) : Z :=
  py * imgWidth img + px.

(** The four neighbours pushed by the flood fill. *)
Definition neighbours4 (px py : Z) : list (Z * Z) :=
  [(px - 1, py); (px + 1, py); (px, py - 1); (px, py + 1)].

(** What the flood fill keeps true from one iteration to the next. *)
Record fillInvariant (img : ImageData) (vis0 : gset Z) (sx sy : Z) (st : fill)
    : Prop := {
  inv_grows : vis0 ⊆ visited st;
  inv_sound : forall idx, idx ∈ visited st ->
    idx ∈ vis0 \/ (isRedAt img idx = true /\ idx ∈ pixelIndices img);
  inv_start_box : minX st <= sx <= maxX st /\ minY st <= sy <= maxY st;
  inv_box_inside : outOfImage img sx sy = false ->
    0 <= minX st /\ maxX st < imgWidth img /\ 0 <= minY st /\ maxY st < imgHeight img;
  inv_box_covers : forall px py,
    outOfImage img px py = false ->
    pixelIndex img px py ∈ visited st -> pixelIndex img px py ∉ vis0 ->
    minX st <= px <= maxX st /\ minY st <= py <= maxY st;
  inv_frontier : forall px py nx ny,
    outOfImage img px py = false ->
    pixelIndex img px py ∈ visited st -> pixelIndex img px py ∉ vis0 ->
    (nx, ny) ∈ neighbours4 px py ->
    (nx, ny) ∈ stack st \/ pixelIndex img nx ny ∈ visited st
    \/ outOfImage img nx ny = true \/ isRedAt img (pixelIndex img nx ny) = false;
  inv_start : (sx, sy) ∈ stack st \/ pixelIndex img sx sy ∈ visited st
    \/ outOfImage img sx sy = true \/ isRedAt img (pixelIndex img sx sy) = false
}.

(** What the outer loop keeps: every used region lies in an emitted
    one, there are no more emitted regions than used ones, and only indices
    of the list are used. *)
Definition mergeInvariant (regions : list Region)
    (acc : list Region * gset nat) : Prop :=
  (forall j r, j ∈ acc.2 -> regions !! j = Some r ->
     exists m, m ∈ acc.1 /\ contains m r)
  /\ (length acc.1 <= size acc.2)%nat
  /\ acc.2 ⊆ list_to_set (seq 0 (length regions)).

End Geometry.

#[local] Set Warnings "-clear-no-such-hyp".

(** * Properties of the region detector *)

Section DetectTermination.
Import Detect.
Variable img : ImageData.

Lemma pixel_index_in_range (px py : Z) :
  outOfImage img px py = false -> py * imgWidth img + px ∈ pixelIndices img.
Proof.
  unfold outOfImage, pixelIndices. intros H.
  repeat (apply orb_false_iff in H; destruct H as [H ?]).
  apply elem_of_list_to_set, elem_of_seqZ.
  rewrite Nat2Z.inj_mul, !Z2Nat.id by lia. nia.
Qed.

Lemma size_pixelIndices :
  size (pixelIndices img) = (Z.to_nat (imgWidth img) * Z.to_nat (imgHeight img))%nat.
Proof.
  unfold pixelIndices. rewrite size_list_to_set by apply NoDup_seqZ.
  rewrite length_seqZ. lia.
Qed.

(** Every iteration of the flood fill lowers the measure by one. *)
Lemma fillStep_measure (st st' : fill) :
  fillStep img st = Some st' -> S (fillMeasure img st') = fillMeasure img st.
Proof.
  unfold fillStep, fillMeasure. destruct (stack st) as [|[px py] rest] eqn:Hs; [discriminate|].
  destruct (bool_decide _ || outOfImage img px py) eqn:Hskip.
  { intros [= <-]. simpl. lia. }
  apply orb_false_iff in Hskip as [Hvis Hout].
  apply bool_decide_eq_false in Hvis.
  destruct (negb _).
  { intros [= <-]. simpl. lia. }
  intros [= <-]. simpl.
  pose proof (pixel_index_in_range _ _ Hout) as Hin.
  set (idx := py * imgWidth img + px) in *.
  assert (Hsz : size (pixelIndices img ∖ visited st)
                = S (size (pixelIndices img ∖ ({[idx]} ∪ visited st)))).
  { replace (pixelIndices img ∖ visited st)
      with ({[idx]} ∪ pixelIndices img ∖ ({[idx]} ∪ visited st)).
    - rewrite size_union by set_solver. rewrite size_singleton. lia.
    - apply set_eq. intros k. destruct (decide (k = idx)); set_solver. }
  lia.
Qed.

Lemma fillLoop_total (fuel : nat) (st : fill) :
  (fillMeasure img st <= fuel)%nat -> is_Some (fillLoop fuel img st).
Proof.
  revert st. induction fuel as [|f IH]; intros st Hm; simpl.
  - destruct (fillStep img st) as [st'|] eqn:Hstep; [|eauto].
    apply fillStep_measure in Hstep. lia.
  - destruct (fillStep img st) as [st'|] eqn:Hstep; [|eauto].
    apply IH. apply fillStep_measure in Hstep. lia.
Qed.

Lemma findCluster_total (vis : gset Z) (sx sy : Z) :
  is_Some (findCluster (fillFuel img) img vis sx sy).
Proof.
  unfold findCluster.
  destruct (fillLoop_total (fillFuel img) (mkFill [(sx, sy)] vis sx sx sy sy)) as [st ->]; [|eauto].
  unfold fillMeasure, fillFuel. simpl.
  pose proof (subseteq_size (pixelIndices img ∖ vis) (pixelIndices img)) as Hle.
  rewrite size_pixelIndices in Hle. specialize (Hle ltac:(set_solver)). lia.
Qed.

Lemma scan_total (pts : list (Z * Z)) (acc : list Region * gset Z) :
  is_Some (fold_left (scanStep (fillFuel img) img) pts (Some acc)).
Proof.
  revert acc. induction pts as [|[px py] pts IH]; intros [regions vis]; simpl; [eauto|].
  destruct (isRedAt img _ && _); [|apply IH].
  destruct (findCluster_total vis px py) as [[region vis'] ->].
  destruct (_ && _); apply IH.
Qed.

End DetectTermination.

Section MergeTermination.
Import Detect.
Variable regions : list Region.

(** One step of the inner loop only adds an index of [regions] to
    [used], and it sets [mergedNew] only when it adds one. *)
Lemma mergeInner_step (j : nat) (c c1 : Region) (u u1 : gset nat) (f f1 : bool) :
  mergeInner regions (c, u, f) j = (c1, u1, f1) ->
  u ⊆ u1
  /\ u1 ⊆ u ∪ list_to_set (seq 0 (length regions))
  /\ (f1 = true -> f = true \/ exists k, k ∈ u1 /\ k ∉ u).
Proof.
  unfold mergeInner.
  assert (Hsame : u ⊆ u /\ u ⊆ u ∪ list_to_set (seq 0 (length regions))
                  /\ (f = true -> f = true \/ exists k, k ∈ u /\ k ∉ u)).
  { split; [done|]. split; [apply union_subseteq_l|]. auto. }
  destruct (bool_decide (j ∈ u)) eqn:Hj; [by intros [= <- <- <-]|].
  apply bool_decide_eq_false in Hj.
  destruct (regions !! j) as [other|] eqn:Hlk; [|by intros [= <- <- <-]].
  destruct (regionsOverlap c other); [|by intros [= <- <- <-]].
  intros [= <- <- <-].
  apply lookup_lt_Some in Hlk.
  assert (Hin : j ∈ (list_to_set (seq 0 (length regions)) : gset nat)).
  { apply elem_of_list_to_set, elem_of_seq. lia. }
  revert Hin. generalize (list_to_set (seq 0 (length regions)) : gset nat).
  intros R Hin.
  split; [set_solver|]. split; [set_solver|].
  intros _. right. exists j. set_solver.
Qed.

Lemma mergeInner_fold (js : list nat) (c c' : Region) (u u' : gset nat) (f f' : bool) :
  fold_left (mergeInner regions) js (c, u, f) = (c', u', f') ->
  u ⊆ u'
  /\ u' ⊆ u ∪ list_to_set (seq 0 (length regions))
  /\ (f' = true -> f = true \/ exists k, k ∈ u' /\ k ∉ u).
Proof.
  revert c u f. induction js as [|j js IH]; intros c u f; cbn [fold_left].
  { intros [= <- <- <-]. split; [done|]. split; [apply union_subseteq_l|]. auto. }
  destruct (mergeInner regions (c, u, f) j) as [[c1 u1] f1] eqn:Hstep.
  intros Hfold. apply mergeInner_step in Hstep as (Ha & Hb & Hc).
  apply IH in Hfold as (Ha' & Hb' & Hc').
  revert Hb Hb'. generalize (list_to_set (seq 0 (length regions)) : gset nat).
  intros R Hb Hb'.
  split; [by etransitivity|]. split.
  { etransitivity; [exact Hb'|]. apply union_least; [exact Hb|apply union_subseteq_r]. }
  intros Ht. destruct (Hc' Ht) as [Hf1|(k & Hk & Hnk)].
  - destruct (Hc Hf1) as [|(k & Hk & Hnk)]; [by left|].
    right. exists k. set_solver.
  - right. exists k. set_solver.
Qed.

Lemma mergePass_spec (current c' : Region) (used used' : gset nat) (mergedNew : bool) :
  mergePass regions current used = (c', used', mergedNew) ->
  used ⊆ used'
  /\ (mergedNew = true ->
      exists j, j ∈ used' /\ (j ∉ used)
                /\ (unusedCount regions used' < unusedCount regions used)%nat).
Proof.
  unfold mergePass. intros Hfold.
  apply mergeInner_fold in Hfold as (Hsub & Hdom & Hflag). split; [done|].
  intros Ht. destruct (Hflag Ht) as [|(j & Hin & Hnot)]; [done|].
  exists j. repeat split; [done..|].
  unfold unusedCount. apply subset_size.
  apply (strict_spec_alt _ _). split; [set_solver|].
  intros Heq. assert (j ∈ (list_to_set (seq 0 (length regions)) ∖ used : gset nat)) by set_solver.
  set_solver.
Qed.

Lemma mergeWhile_total (fuel : nat) (current : Region) (used : gset nat) :
  (unusedCount regions used < fuel)%nat ->
  is_Some (mergeWhile fuel regions current used).
Proof.
  revert current used. induction fuel as [|f IH]; intros current used Hf; [lia|].
  simpl. destruct (mergePass regions current used) as [[c' used'] m] eqn:Hpass.
  apply mergePass_spec in Hpass as [_ H]. destruct m; [|eauto].
  destruct (H eq_refl) as (j & _ & _ & Hlt). apply IH. lia.
Qed.

Lemma unusedCount_le (used : gset nat) :
  (unusedCount regions used <= length regions)%nat.
Proof.
  unfold unusedCount.
  etransitivity; [apply (subseteq_size _ (list_to_set (seq 0 (length regions)))); set_solver|].
  rewrite size_list_to_set by apply NoDup_seq. by rewrite length_seq.
Qed.

Lemma mergeOuter_total (idxs : list nat) (acc : list Region * gset nat) :
  is_Some (fold_left (mergeOuter (mergeFuel regions) regions) idxs (Some acc)).
Proof.
  revert acc. induction idxs as [|i idxs IH]; intros [merged used]; cbn [fold_left]; [eauto|].
  unfold mergeOuter at 2.
  destruct (bool_decide (i ∈ used)); [apply IH|].
  destruct (regions !! i) as [seed|]; [|apply IH].
  destruct (mergeWhile_total (mergeFuel regions) seed ({[i]} ∪ used)) as [[c u] ->]; [|apply IH].
  unfold mergeFuel. pose proof (unusedCount_le ({[i]} ∪ used)). lia.
Qed.

Lemma mergeOverlappingRegions_total : is_Some (mergeOverlappingRegions regions).
Proof.
  unfold mergeOverlappingRegions, mergeOverlappingRegionsFuel.
  destruct regions as [|r rs] eqn:E; [eauto|]. rewrite <- E.
  destruct (mergeOuter_total (seq 0 (length regions)) ([], ∅)) as [[m u] ->]. eauto.
Qed.

End MergeTermination.

Section DetectClaims.
Import Detect Spec Scenarios.

Lemma detectRedRegions_total (img : ImageData) : is_Some (detectRedRegions img).
Proof.
  unfold detectRedRegions.
  destruct (scan_total img (scanPoints img) ([], ∅)) as [[regions vis] ->].
  apply mergeOverlappingRegions_total.
Qed.

(** An iteration of the merge loop that is not skipped marks its seed
    region, which was unused. *)
Lemma mergeOuter_marks_seed (fuel : nat) (regions merged merged' : list Region)
    (used used' : gset nat) (i : nat) :
  i ∉ used -> (i < length regions)%nat ->
  mergeOuter fuel regions (Some (merged, used)) i = Some (merged', used') ->
  i ∈ used'.
Proof.
  intros Hi Hlt. unfold mergeOuter.
  rewrite bool_decide_eq_false_2 by done.
  destruct (lookup_lt_is_Some_2 regions i Hlt) as [seed ->].
  destruct (mergeWhile fuel regions seed ({[i]} ∪ used)) as [[c u]|] eqn:Hw; [|discriminate].
  intros [= <- <-]. clear Hi Hlt.
  revert seed used c u Hw. induction fuel as [|f IH]; intros seed used c u; [discriminate|].
  simpl. destruct (mergePass regions seed ({[i]} ∪ used)) as [[c1 u1] m] eqn:Hp.
  apply mergePass_spec in Hp as [Hsub _].
  destruct m.
  - intros Hw. replace u1 with ({[i]} ∪ u1) in Hw by set_solver. by apply IH in Hw.
  - intros [= <- <-]. set_solver.
Qed.

(** C10. The canvas strategy terminates on every pixel buffer.  Each
    iteration of the flood-fill loop either marks a pixel that was not
    visited, or leaves the visited set alone and shortens the stack; each
    iteration of the merge loop that starts a region marks its seed, which was
    unused, and a pass of the inner [while] loop asks for another pass only
    when it marked a region that was unused; hence [detectRedRegions] returns
    a result for every image. *)
Theorem canvas_detection_terminates (img : ImageData) :
  (forall st st', fillStep img st = Some st' ->
     (exists idx, (idx ∉ visited st) /\ visited st' = {[idx]} ∪ visited st)
     \/ (visited st' = visited st /\ (length (stack st') < length (stack st))%nat))
  /\ (forall fuel regions merged merged' used used' i,
        i ∉ used -> (i < length regions)%nat ->
        mergeOuter fuel regions (Some (merged, used)) i = Some (merged', used') ->
        i ∈ used')
  /\ (forall regions current current' used used',
        mergePass regions current used = (current', used', true) ->
        exists j, j ∈ used' /\ (j ∉ used))
  /\ is_Some (detectRedRegions img).
Proof.
  split; [|split; [|split]].
  - intros st st'. unfold fillStep.
    destruct (stack st) as [|[px py] rest]; [discriminate|].
    destruct (bool_decide _ || outOfImage img px py) eqn:Hskip.
    { intros [= <-]. right. simpl. split; [done|lia]. }
    apply orb_false_iff in Hskip as [Hvis _]. apply bool_decide_eq_false in Hvis.
    destruct (negb _).
    { intros [= <-]. right. simpl. split; [done|lia]. }
    intros [= <-]. left. eexists. split; [exact Hvis|reflexivity].
  - intros *. apply mergeOuter_marks_seed.
  - intros * Hp. apply mergePass_spec in Hp as [_ H].
    destruct (H eq_refl) as (j & ? & ? & _). eauto.
  - apply detectRedRegions_total.
Qed.

Lemma canvas_detection_terminates_witness :
  detectRedRegions tinyImage = Some []
  /\ exists idx, (idx ∉ (∅ : gset Z)) /\ {[0]} = {[idx]} ∪ (∅ : gset Z).
Proof.
  destruct (canvas_detection_terminates tinyImage) as (Hstep & _ & _ & Htot).
  split.
  - destruct Htot as [r Hr]. rewrite Hr. f_equal.
    assert (Some r = Some []) as [= ->]; [|done]. rewrite <- Hr. vm_compute. reflexivity.
  - destruct (Hstep (mkFill [(0, 0)] ∅ 0 0 0 0)
                    (mkFill [(0, 1); (0, -1); (1, 0); (-1, 0)] ({[0]} ∪ ∅) 0 0 0 0))
      as [(idx & Hn & He)|[He _]].
    + vm_compute. reflexivity.
    + exists idx. split; [done|]. simpl in He. rewrite <- He. set_solver.
    + simpl in He. exfalso. set_solver.
Defined.

(** The overlap test of the code is the closed-interval test on both
    axes. *)
Lemma regionsOverlap_touches (r1 r2 : Region) :
  regionsOverlap r1 r2 = touches r1 r2.
Proof.
  unfold regionsOverlap, touches.
  destruct (Z.ltb_spec (x r1 + width r1) (x r2)), (Z.ltb_spec (x r2 + width r2) (x r1)),
    (Z.ltb_spec (y r1 + height r1) (y r2)), (Z.ltb_spec (y r2 + height r2) (y r1));
    simpl; lia.
Qed.

(** The scenario of the specification: two overlapping regions become
    their union. *)
Example merge_two_overlapping :
  mergeOverlappingRegions [mkRegion 0 0 10 10; mkRegion 5 5 10 10]
  = Some [mkRegion 0 0 15 15].
Proof. vm_compute; reflexivity. Qed.

(** An image without red pixels has no regions. *)
Example detect_nothing :
  detectRedRegions (mkImage 2 2 (repeat 255 16)) = Some [].
Proof. vm_compute; reflexivity. Qed.

(** C1. The merge step can return regions that overlap: a region already
    emitted is not looked at again when a later seed grows over it.  For the
    three boxes of [Scenarios] the inputs are pairwise apart except that
    [boxA] touches [boxB]; the output keeps [boxM] next to the union of the
    other two, which covers it.  The same list of boxes comes out of the flood
    fill on [cornerImage], so the detector itself returns the overlapping
    pair. *)
Theorem merge_output_can_overlap :
  regionsOverlap boxM boxA = false
  /\ regionsOverlap boxM boxB = false
  /\ mergeOverlappingRegions [boxM; boxA; boxB]
     = Some [boxM; mkRegion 0 2 41 39]
  /\ regionsOverlap boxM (mkRegion 0 2 41 39) = true
  /\ touches boxM (mkRegion 0 2 41 39) = true
  /\ detectRedRegions cornerImage = Some [boxM; mkRegion 0 2 41 39].
Proof.
  split; [vm_compute; reflexivity|]. split; [vm_compute; reflexivity|].
  split; [vm_compute; reflexivity|]. split; [vm_compute; reflexivity|].
  split; vm_compute; reflexivity.
Qed.

End DetectClaims.

(** * Properties of the calendar reconstructor *)

Section ParserBasics.
Import Detect Parser Spec Scenarios.

Lemma eventView_makeEvent (ent ent' : entropy) (k k' : nat) (d am ay : Z) (t : jsstring) :
  eventView (makeEvent ent k d am ay t) = eventView (makeEvent ent' k' d am ay t).
Proof. unfold makeEvent. by destruct (extractTimeFromText t) as [[t0 t1]|]. Qed.

Lemma isDuplicate_views (evs evs' : list CalendarEvent) (d am ay : Z) (t : jsstring) :
  map eventView evs = map eventView evs' ->
  isDuplicate evs d am ay t = isDuplicate evs' d am ay t.
Proof.
  revert evs'. induction evs as [|e evs IH]; intros [|e' evs']; simpl; try done.
  intros [= Hd Ht _ _ Hrest]. rewrite Hd, Ht. f_equal. by apply IH.
Qed.

(** The loop body keeps two runs in step, whatever the clock and the
    random source give. *)
Lemma loopBody_views (ent ent' : entropy) (yr mon dim : Z) (ct : CalendarType)
    (sorted : list OCRResult) (weeks : gmap nat DateInfo) (st st' : loopState) (i : nat) :
  trk st = trk st' -> map eventView (found st) = map eventView (found st') ->
  let r := loopBody ent yr mon dim ct sorted weeks st i in
  let r' := loopBody ent' yr mon dim ct sorted weeks st' i in
  trk r = trk r' /\ map eventView (found r) = map eventView (found r').
Proof.
  intros Ht Hf. unfold loopBody.
  destruct (sorted !! i) as [result|]; [|done].
  destruct (matchDay (text result)) as [[[? tok] ?]|]; [|done].
  destruct (_ || _); [done|].
  destruct (weeks !! i) as [info|]; [|done].
  rewrite <- Ht.
  destruct (detectMonth dim (trk st) (parseDigits tok) (weekIndex info)) as [off t'].
  destruct (actualYearMonth yr mon off) as [ay am].
  destruct (isEmpty _); [done|].
  rewrite (isDuplicate_views _ _ _ _ _ _ Hf).
  destruct (isDuplicate _ _ _ _ _); [done|].
  simpl. split; [done|].
  rewrite !map_app, Hf. simpl. f_equal. f_equal. apply eventView_makeEvent.
Qed.

Lemma loop_views (ent ent' : entropy) (yr mon dim : Z) (ct : CalendarType)
    (sorted : list OCRResult) (weeks : gmap nat DateInfo) (idxs : list nat)
    (st st' : loopState) :
  trk st = trk st' -> map eventView (found st) = map eventView (found st') ->
  let r := fold_left (loopBody ent yr mon dim ct sorted weeks) idxs st in
  let r' := fold_left (loopBody ent' yr mon dim ct sorted weeks) idxs st' in
  trk r = trk r' /\ map eventView (found r) = map eventView (found r').
Proof.
  revert st st'. induction idxs as [|i idxs IH]; intros st st' Ht Hf; cbn [fold_left]; [done|].
  destruct (loopBody_views ent ent' yr mon dim ct sorted weeks st st' i Ht Hf) as [Ht' Hf'].
  by apply IH.
Qed.

(** C8. Two runs on the same fragments, year, month and mode yield events
    with the same dates, titles, start times and end times, position by
    position; only the identifiers, which read the clock and the random
    source, can differ. *)
Theorem parse_is_repeatable (ent ent' : entropy) (ocrResults : list OCRResult)
    (yr mon : Z) (ct : CalendarType) :
  eventViews (parseCalendarFromOCR ent ocrResults yr mon ct)
  = eventViews (parseCalendarFromOCR ent' ocrResults yr mon ct).
Proof.
  unfold eventViews, parseCalendarFromOCR. cbn [events].
  by apply loop_views.
Qed.

(** The identifiers do differ when the clock and the random source
    do. *)
Example identifiers_differ :
  map id (events (parseCalendarFromOCR fixedEntropy [fragment "15 Meeting" 200 250] 2024 2 standard))
  = [lit "event-15-2-2024-1700000000000-k3j9x0q2m"]
  /\ map id (events (parseCalendarFromOCR otherEntropy [fragment "15 Meeting" 200 250] 2024 2 standard))
     = [lit "event-15-2-2024-1800000000000-zzzzzzzzz"].
Proof. split; vm_compute; reflexivity. Qed.

(** C3, as the code has it: no call is rejected.  Whatever the month, in
    or outside 1..12, and whatever the fragments, the call returns, and the
    result echoes the year and the month it was given. *)
Theorem parse_never_rejects (ent : entropy) (ocrResults : list OCRResult)
    (yr mon : Z) (ct : CalendarType) :
  exists data,
    callParseCalendarFromOCR ent ocrResults yr mon ct = Returned data
    /\ year data = yr /\ month data = mon.
Proof. eexists. split; [reflexivity|]. done. Qed.

(** C3, as stated, fails: month 13 is outside 1..12 and the call returns
    an empty result instead of throwing. *)
Lemma month_13_is_accepted :
  ~ (1 <= 13 <= 12)
  /\ callParseCalendarFromOCR fixedEntropy [] 2024 13 standard
     = Returned (mkParsed 2024 13 [])
  /\ ~ (exists message,
          callParseCalendarFromOCR fixedEntropy [] 2024 13 standard = Threw message).
Proof.
  split; [lia|]. split; [reflexivity|]. intros [message H]. discriminate H.
Qed.

(** No fragments, no events: the year and the month are echoed. *)
Example parse_empty (ent : entropy) (yr mon : Z) (ct : CalendarType) :
  parseCalendarFromOCR ent [] yr mon ct = mkParsed yr mon [].
Proof. reflexivity. Qed.

End ParserBasics.

Section MonthClaims.
Import Detect Parser Spec Scenarios.


(** The rule chain always records the day it was given. *)
Lemma detectMonth_lastDay (dim : Z) (t : tracker) (d wk : Z) :
  lastDay (snd (detectMonth dim t d wk)) = d.
Proof.
  unfold detectMonth.
  repeat match goal with
         | |- context [if ?b then _ else _] => destruct b
         end; reflexivity.
Qed.





(** C2. The month-offset bound fails once the day does not exist in the
    month the rule chain picked: the [Date] constructor rolls the day over
    into the month after.  In a January 2023 request, a fifth row reading
    1, 28, 29 puts "29" into the next month as the successor of 28, and
    29 February 2023 becomes 1 March 2023, two months after the request. *)
Theorem next_month_overflow_escapes_bound :
  map date (events (parseCalendarFromOCR fixedEntropy januaryTail 2023 1 standard))
  = [mkDate 2023 1 1; mkDate 2023 0 28; mkDate 2023 2 1]
  /\ map (fun e => withinOneMonth 2023 1 (date e))
         (events (parseCalendarFromOCR fixedEntropy januaryTail 2023 1 standard))
     = [true; true; false]
  /\ newDate 2023 1 29 = mkDate 2023 2 1.
Proof.
  split; [vm_compute; reflexivity|]. split; vm_compute; reflexivity.
Qed.

(** C4. In shift mode the title does not depend on the neighbouring
    fragments, and a fragment with a C or a moon glyph is a night shift; but
    a title found in the fragment's own text is kept instead of being
    replaced by "dayshift": "15 Meeting" is titled "Meeting". *)
Theorem shift_mode_keeps_own_title :
  (forall sorted sorted' i i' r,
     resolveTitle jojo sorted i r = resolveTitle jojo sorted' i' r)
  /\ (forall sorted i r, hasC (text r) || hasMoon (text r) = true ->
        resolveTitle jojo sorted i r = lit "nightshift")
  /\ (forall sorted i r, hasC (text r) || hasMoon (text r) = false ->
        ownTitle (text r) = [] ->
        resolveTitle jojo sorted i r = lit "dayshift")
  /\ hasC (lit "15 Meeting") || hasMoon (lit "15 Meeting") = false
  /\ map title (events (parseCalendarFromOCR fixedEntropy shiftRow 2024 2 jojo))
     = [lit "Meeting"; lit "nightshift"; lit "dayshift"].
Proof.
  split; [|split; [|split; [|split]]].
  - intros. unfold resolveTitle. reflexivity.
  - intros sorted i r H. unfold resolveTitle. by rewrite H.
  - intros sorted i r H Ho. unfold resolveTitle. by rewrite H, Ho.
  - vm_compute; reflexivity.
  - vm_compute; reflexivity.
Qed.

(** C6. In week row 0, a day of 25 or more seen before any other day
    belongs to the previous month, and a day of 5 or less that follows a day
    of 28 or more, before any switch to the current month, belongs to the
    current month.  For February 2024, "31 Task" followed by "1 Work" in the
    first row gives 31 January 2024 titled "Task" and 1 February 2024. *)
Theorem first_row_previous_month_overflow (dim : Z) (t : tracker) (d d' : Z)
    (Hfresh : lastDay t = 0) (Hnotyet : hasBeenInCurrentMonth t = false)
    (Hswitch : hasTransitionedToCurrent t = false)
    (Hd : 28 <= d) (Hd' : d' <= 5) :
  fst (detectMonth dim t d 0) = -1
  /\ fst (detectMonth dim (snd (detectMonth dim t d 0)) d' 0) = 0
  /\ eventViews (parseCalendarFromOCR fixedEntropy
                   [fragment "31 Task" 100 150; fragment "1 Work" 150 150] 2024 2 standard)
     = [(mkDate 2024 0 31, lit "Task", None, None);
        (mkDate 2024 1 1, lit "Work", None, None)].
Proof.
  assert (H1 : detectMonth dim t d 0
               = (-1, mkTracker d (if negb (0 =? currentWeek t) then 0 else currentWeek t)
                                false false (isInNextMonth t) (hasSeenEndOfMonth t))).
  { unfold detectMonth. rewrite Hfresh, Hnotyet, Hswitch.
    replace (25 <=? d) with true by lia. reflexivity. }
  split; [by rewrite H1|]. split; [|vm_compute; reflexivity].
  rewrite H1. unfold detectMonth. cbn [snd lastDay hasBeenInCurrentMonth hasTransitionedToCurrent].
  replace (25 <=? d') with false by lia.
  replace (28 <=? d) with true by lia. replace (d' <=? 5) with true by lia.
  rewrite !andb_false_r. reflexivity.
Qed.

Lemma first_row_previous_month_overflow_witness :
  fst (detectMonth 29 initialTracker 31 0) = -1
  /\ fst (detectMonth 29 (snd (detectMonth 29 initialTracker 31 0)) 1 0) = 0
  /\ eventViews (parseCalendarFromOCR fixedEntropy
                   [fragment "31 Task" 100 150; fragment "1 Work" 150 150] 2024 2 standard)
     = [(mkDate 2024 0 31, lit "Task", None, None);
        (mkDate 2024 1 1, lit "Work", None, None)].
Proof.
  apply (first_row_previous_month_overflow 29 initialTracker 31 1);
    [reflexivity | reflexivity | reflexivity | lia | lia].
Defined.

(** C7. From week row 3 on, a day of 5 or less that follows a day of 25
    or more belongs to the next month.  For February 2024, "29 Review" and
    then "1 Plan" in the row of week index 4 give 29 February 2024 and
    1 March 2024. *)
Theorem tail_rollover_next_month (dim : Z) (t : tracker) (d wk : Z)
    (Hrow : 3 <= wk) (Hprev : 25 <= lastDay t) (Hd : d <= 5) :
  fst (detectMonth dim t d wk) = 1
  /\ (let sorted := sort compareResults
                      (calendarStructure
                       ++ [fragment "29 Review" 250 350; fragment "1 Plan" 300 350]) in
      map (fun i => (text <$> sorted !! i, weekIndex <$> assignWeekIndices sorted !! i)) [5; 6]%nat
      = [(Some (lit "29 Review"), Some 4); (Some (lit "1 Plan"), Some 4)])
  /\ eventViews (parseCalendarFromOCR fixedEntropy
                   (calendarStructure
                    ++ [fragment "29 Review" 250 350; fragment "1 Plan" 300 350])
                   2024 2 standard)
     = [(mkDate 2024 1 29, lit "Review", None, None);
        (mkDate 2024 2 1, lit "Plan", None, None)].
Proof.
  split; [|split; vm_compute; reflexivity].
  unfold detectMonth.
  replace (wk =? 0) with false by lia. replace (3 <=? wk) with true by lia.
  replace (25 <=? lastDay t) with true by lia. replace (d <=? 5) with true by lia.
  reflexivity.
Qed.

Lemma tail_rollover_next_month_witness :
  3 <= 4 /\ 25 <= lastDay (mkTracker 29 4 false false false false) /\ 1 <= 5
  /\ fst (detectMonth 29 (mkTracker 29 4 false false false false) 1 4) = 1.
Proof.
  split; [lia|]. split; [simpl; lia|]. split; [lia|].
  apply (tail_rollover_next_month 29 (mkTracker 29 4 false false false false) 1 4);
    simpl; lia.
Defined.

End MonthClaims.

Section TimeClaims.
Import Detect Parser Spec Scenarios.












End TimeClaims.

(** * The canonical ordering *)

Section SortProperties.
Context {A : Type} (cmp : A -> A -> Z) (P : A -> Prop).
Hypothesis cmp_flip : forall a b, P a -> P b -> cmp b a = - cmp a b.
Hypothesis cmp_trans :
  forall a b c, P a -> P b -> P c -> cmp a b <= 0 -> cmp b c <= 0 -> cmp a c <= 0.

Lemma sortInsert_perm (a : A) (l : list A) : sortInsert cmp a l ≡ₚ a :: l.
Proof.
  induction l as [|e l IH]; simpl; [done|].
  destruct (cmp a e <? 0); [done|]. rewrite IH. apply Permutation_swap.
Qed.

Lemma sort_fold_perm (l acc : list A) :
  fold_left (fun acc a => sortInsert cmp a acc) l acc ≡ₚ l ++ acc.
Proof.
  revert acc. induction l as [|a l IH]; intros acc; simpl; [done|].
  rewrite IH, sortInsert_perm. by rewrite Permutation_middle.
Qed.

Lemma sort_perm (l : list A) : sort cmp l ≡ₚ l.
Proof. unfold sort. rewrite sort_fold_perm. by rewrite app_nil_r. Qed.

Lemma sortInsert_sorted (a : A) (l : list A) :
  P a -> Forall P l ->
  StronglySorted (fun u v => cmp u v <= 0) l ->
  StronglySorted (fun u v => cmp u v <= 0) (sortInsert cmp a l).
Proof.
  intros Ha Hl Hs. induction Hs as [|e l Hs IH He]; simpl.
  { repeat constructor. }
  apply Forall_cons in Hl as [Pe Pl].
  destruct (Z.ltb_spec (cmp a e) 0) as [Hlt|Hge].
  - constructor; [by constructor|]. constructor; [lia|].
    rewrite Forall_forall in He, Pl. apply Forall_forall. intros v Hv.
    apply (cmp_trans a e v); [done | done | by apply Pl | lia | by apply He].
  - constructor; [by apply IH|].
    rewrite sortInsert_perm. constructor; [|done].
    rewrite (cmp_flip a e) by done. lia.
Qed.

Lemma sort_fold_sorted (l acc : list A) :
  Forall P l -> Forall P acc ->
  StronglySorted (fun u v => cmp u v <= 0) acc ->
  StronglySorted (fun u v => cmp u v <= 0)
                 (fold_left (fun acc a => sortInsert cmp a acc) l acc).
Proof.
  revert acc. induction l as [|a l IH]; intros acc Hl Hacc Hs; simpl; [done|].
  apply Forall_cons in Hl as [Pa Pl]. apply IH; [done| |by apply sortInsert_sorted].
  rewrite sortInsert_perm. by constructor.
Qed.

Lemma sort_sorted (l : list A) :
  Forall P l -> StronglySorted (fun u v => cmp u v <= 0) (sort cmp l).
Proof. intros Hl. apply sort_fold_sorted; [done|constructor|constructor]. Qed.

End SortProperties.

Lemma StronglySorted_lookup {A : Type} (R : A -> A -> Prop) (l : list A) :
  StronglySorted R l ->
  forall i j a b, (i < j)%nat -> l !! i = Some a -> l !! j = Some b -> R a b.
Proof.
  induction 1 as [|e l Hs IH He]; intros i j a b Hij Hi Hj; [done|].
  destruct j as [|j]; [lia|]. destruct i as [|i]; simpl in *.
  - injection Hi as <-. rewrite Forall_forall in He. apply He.
    by eapply list_elem_of_lookup_2.
  - apply (IH i j); [lia|done|done].
Qed.

Section OrderClaims.
Import Detect Parser Spec Scenarios.

Lemma compareResults_flip (a b : OCRResult) :
  compareResults b a = - compareResults a b.
Proof.
  unfold compareResults.
  replace (Z.abs (y (region b) - y (region a)))
    with (Z.abs (y (region a) - y (region b))) by lia.
  destruct (50 <=? _); lia.
Qed.

Lemma compareResults_trans (l : list OCRResult) (a b c : OCRResult) :
  rowsApart l -> a ∈ l -> b ∈ l -> c ∈ l ->
  compareResults a b <= 0 -> compareResults b c <= 0 -> compareResults a c <= 0.
Proof.
  intros Hrows Ha Hb Hc.
  pose proof (Hrows a b c Ha Hb Hc) as H1.
  pose proof (Hrows c a b Hc Ha Hb) as H2.
  pose proof (Hrows a c b Ha Hc Hb) as H3.
  unfold sameRow, compareResults in *.
  destruct (Z.leb_spec 50 (Z.abs (y (region a) - y (region b))));
    destruct (Z.leb_spec 50 (Z.abs (y (region b) - y (region c))));
    destruct (Z.leb_spec 50 (Z.abs (y (region a) - y (region c)))); lia.
Qed.

(** C9, as the code has it.  The ordering step returns a rearrangement of
    the fragments; when the rows of the input are apart (being less than 50
    apart in Y is transitive), any fragment placed before another has the
    smaller Y if their Y differ by 50 or more, and an X that is not larger if
    their Y differ by less than 50. *)
Theorem canonical_order_when_rows_apart (frags : list OCRResult)
    (Hrows : rowsApart frags) :
  sort compareResults frags ≡ₚ frags
  /\ forall i j a b, (i < j)%nat ->
       sort compareResults frags !! i = Some a ->
       sort compareResults frags !! j = Some b ->
       (50 <= Z.abs (y (region a) - y (region b)) -> y (region a) < y (region b))
       /\ (Z.abs (y (region a) - y (region b)) < 50 -> x (region a) <= x (region b)).
Proof.
  split; [apply sort_perm|].
  intros i j a b Hij Hi Hj.
  assert (Hs : StronglySorted (fun u v => compareResults u v <= 0)
                              (sort compareResults frags)).
  { apply (sort_sorted compareResults (fun r => r ∈ frags)).
    - intros; apply compareResults_flip.
    - intros u v w Hu Hv Hw. by apply (compareResults_trans frags).
    - by apply Forall_forall. }
  pose proof (StronglySorted_lookup _ _ Hs i j a b Hij Hi Hj) as Hle.
  unfold compareResults in Hle.
  destruct (Z.leb_spec 50 (Z.abs (y (region a) - y (region b)))); lia.
Qed.

Lemma canonical_order_when_rows_apart_witness :
  rowsApart [fragment "2 Plan" 200 150; fragment "31 Task" 100 150]
  /\ sort compareResults [fragment "2 Plan" 200 150; fragment "31 Task" 100 150]
     ≡ₚ [fragment "2 Plan" 200 150; fragment "31 Task" 100 150].
Proof.
  assert (H : rowsApart [fragment "2 Plan" 200 150; fragment "31 Task" 100 150]).
  { intros a b c Ha Hb Hc _ _. unfold sameRow.
    apply list_elem_of_In in Ha, Hc. simpl in Ha, Hc.
    destruct Ha as [<-|[<-|[]]]; destruct Hc as [<-|[<-|[]]]; simpl; lia. }
  split; [exact H|].
  apply (canonical_order_when_rows_apart _ H).
Defined.

(** C9, as stated, fails.  On the staircase no arrangement at all has the
    claimed order: each fragment must come before the next one (same row,
    smaller X), and the first before the last (more than 50 above it).  And
    two fragments exactly 50 apart in Y are ordered by Y, not by X. *)
Lemma staircase_has_no_canonical_order :
  (forall l, l ≡ₚ staircase -> ~ canonicalOrderClaim l)
  /\ ~ canonicalOrderClaim (sort compareResults staircase)
  /\ sort compareResults fiftyApart = fiftyApart
  /\ ~ canonicalOrderClaim (sort compareResults fiftyApart).
Proof.
  assert (Hall : forall l, l ≡ₚ staircase -> ~ canonicalOrderClaim l).
  { intros l Hp Hclaim.
    assert (Hin : forall r, r ∈ staircase -> exists i, l !! i = Some r).
    { intros r Hr. apply list_elem_of_lookup_1. by rewrite Hp. }
    destruct (Hin (fragment "1 a" 100 0)) as [ia Ha]; [set_solver|].
    destruct (Hin (fragment "2 b" 50 40)) as [ib Hb]; [set_solver|].
    destruct (Hin (fragment "3 c" 0 80)) as [ic Hc]; [set_solver|].
    destruct (Hclaim ib ia _ _ Hb Ha) as [_ Hba].
    destruct (Hclaim ic ib _ _ Hc Hb) as [_ Hcb].
    destruct (Hclaim ia ic _ _ Ha Hc) as [Hac _].
    simpl in *. lia. }
  split; [exact Hall|]. split; [apply Hall, sort_perm|].
  split; [vm_compute; reflexivity|].
  intros Hclaim.
  destruct (Hclaim 1%nat 0%nat (fragment "2 b" 0 50) (fragment "1 a" 100 0)) as [_ H];
    [vm_compute; reflexivity..|].
  simpl in H. lia.
Qed.

End OrderClaims.

(** * Dates *)

Section DateFacts.
Import Parser Spec Calendar.

















End DateFacts.

(** * The flood fill and the regions it yields *)

Section FloodFill.
Import Detect Geometry.
Variable img : ImageData.
Variable vis0 : gset Z.
Variables sx sy : Z.

Lemma pixelIndex_injective (px py qx qy : Z) :
  outOfImage img px py = false -> outOfImage img qx qy = false ->
  pixelIndex img px py = pixelIndex img qx qy -> px = qx /\ py = qy.
Proof.
  unfold outOfImage, pixelIndex. intros Hp Hq Heq.
  repeat (apply orb_false_iff in Hp; destruct Hp as [Hp ?]).
  repeat (apply orb_false_iff in Hq; destruct Hq as [Hq ?]).
  assert (py = qy) by nia. split; [nia|done].
Qed.

Lemma fillInvariant_initial :
  fillInvariant img vis0 sx sy (mkFill [(sx, sy)] vis0 sx sx sy sy).
Proof.
  split; cbn [stack visited minX maxX minY maxY].
  - done.
  - intros idx H. by left.
  - lia.
  - unfold outOfImage. intros H.
    repeat (apply orb_false_iff in H; destruct H as [H ?]). lia.
  - intros px py _ H Hn. done.
  - intros px py nx ny _ H Hn. done.
  - left. apply list_elem_of_here.
Qed.

Lemma fillStep_invariant (st st' : fill) :
  fillInvariant img vis0 sx sy st -> fillStep img st = Some st' ->
  fillInvariant img vis0 sx sy st'.
Proof.
  intros [Hg Hs Hsb Hbi Hbc Hf Hst]. unfold fillStep.
  destruct (stack st) as [|[qx qy] rest] eqn:Hstack; [discriminate|].
  fold (pixelIndex img qx qy).
  destruct (bool_decide _ || outOfImage img qx qy) eqn:Hskip.
  { (* the popped pixel is skipped *)
    intros [= <-]. split; cbn [stack visited minX maxX minY maxY]; try done.
    - intros px py nx ny Hin Hv Hn0 Hnb.
      destruct (Hf px py nx ny Hin Hv Hn0 Hnb) as [Hs1|H]; [|by right].
      apply elem_of_cons in Hs1 as [[= -> ->]|Hs1]; [|by left].
      apply orb_true_iff in Hskip as [Hv'|Ho].
      + right. left. by apply bool_decide_eq_true in Hv'.
      + right. right. by left.
    - destruct Hst as [Hs1|H]; [|by right].
      apply elem_of_cons in Hs1 as [[= -> ->]|Hs1]; [|by left].
      apply orb_true_iff in Hskip as [Hv'|Ho].
      + right. left. by apply bool_decide_eq_true in Hv'.
      + right. right. by left. }
  apply orb_false_iff in Hskip as [Hnv Hin]. apply bool_decide_eq_false in Hnv.
  destruct (isRedAt img (pixelIndex img qx qy)) eqn:Hred; cbn [negb].
  2:{ (* the popped pixel is not red *)
    intros [= <-]. split; cbn [stack visited minX maxX minY maxY]; try done.
    - intros px py nx ny Hin' Hv Hn0 Hnb.
      destruct (Hf px py nx ny Hin' Hv Hn0 Hnb) as [Hs1|H]; [|by right].
      apply elem_of_cons in Hs1 as [[= -> ->]|Hs1]; [|by left].
      right. right. by right.
    - destruct Hst as [Hs1|H]; [|by right].
      apply elem_of_cons in Hs1 as [[= -> ->]|Hs1]; [|by left].
      right. right. by right. }
  (* the popped pixel is marked *)
  intros [= <-]. split; cbn [stack visited minX maxX minY maxY].
  - set_solver.
  - intros idx Hidx. apply elem_of_union in Hidx as [Hidx|Hidx]; [|by apply Hs].
    apply elem_of_singleton in Hidx as ->. right. split; [done|].
    by apply pixel_index_in_range.
  - lia.
  - intros Hsin. specialize (Hbi Hsin). unfold outOfImage in Hin.
    repeat (apply orb_false_iff in Hin; destruct Hin as [Hin ?]). lia.
  - intros px py Hpin Hv Hn0.
    apply elem_of_union in Hv as [Hv|Hv].
    + apply elem_of_singleton in Hv.
      destruct (pixelIndex_injective _ _ _ _ Hpin Hin Hv) as [-> ->]. lia.
    + specialize (Hbc px py Hpin Hv Hn0). lia.
  - intros px py nx ny Hpin Hv Hn0 Hnb.
    apply elem_of_union in Hv as [Hv|Hv].
    + apply elem_of_singleton in Hv.
      destruct (pixelIndex_injective _ _ _ _ Hpin Hin Hv) as [-> ->].
      left. unfold neighbours4 in Hnb.
      repeat (apply elem_of_cons in Hnb as [[= -> ->]|Hnb]);
        [| | | |by apply elem_of_nil in Hnb].
      * do 3 apply list_elem_of_further. apply list_elem_of_here.
      * do 2 apply list_elem_of_further. apply list_elem_of_here.
      * apply list_elem_of_further, list_elem_of_here.
      * apply list_elem_of_here.
    + destruct (Hf px py nx ny Hpin Hv Hn0 Hnb) as [Hs1|[H|H]].
      * apply elem_of_cons in Hs1 as [[= -> ->]|Hs1].
        -- right. left. set_solver.
        -- left. by do 4 apply list_elem_of_further.
      * right. left. set_solver.
      * by right; right.
  - destruct Hst as [Hs1|[H|H]].
    + apply elem_of_cons in Hs1 as [[= -> ->]|Hs1].
      * right. left. set_solver.
      * left. by do 4 apply list_elem_of_further.
    + right. left. set_solver.
    + by right; right.
Qed.

Lemma fillLoop_invariant (fuel : nat) (st st' : fill) :
  fillInvariant img vis0 sx sy st -> fillLoop fuel img st = Some st' ->
  fillInvariant img vis0 sx sy st' /\ stack st' = [].
Proof.
  revert st. induction fuel as [|f IH]; intros st Hinv; simpl.
  - destruct (fillStep img st) as [st1|] eqn:Hstep; [discriminate|].
    intros [= <-]. split; [done|].
    unfold fillStep in Hstep. destruct (stack st) as [|[? ?] ?]; [done|].
    repeat destruct (_ : bool); discriminate.
  - destruct (fillStep img st) as [st1|] eqn:Hstep.
    + apply IH. by eapply fillStep_invariant.
    + intros [= <-]. split; [done|].
      unfold fillStep in Hstep. destruct (stack st) as [|[? ?] ?]; [done|].
      repeat destruct (_ : bool); discriminate.
Qed.

End FloodFill.

Section Clusters.
Import Detect Geometry Scenarios.

(** X4. The flood fill is sound and complete for 4-connectivity.  It
    only adds red pixels of the image to the visited set and forgets none;
    a start pixel that is red and inside the image ends up visited; and when
    a pixel of the image was visited by this fill, each of its four
    neighbours that is a red pixel of the image is visited as well. *)
Theorem flood_fill_closed_under_neighbours (fuel : nat) (img : ImageData)
    (vis vis' : gset Z) (sx sy : Z) (r : Region)
    (Hrun : findCluster fuel img vis sx sy = Some (r, vis')) :
  vis ⊆ vis'
  /\ (forall idx, idx ∈ vis' ->
        idx ∈ vis \/ (isRedAt img idx = true /\ idx ∈ pixelIndices img))
  /\ (outOfImage img sx sy = false ->
      isRedAt img (pixelIndex img sx sy) = true ->
      pixelIndex img sx sy ∈ vis')
  /\ (forall px py nx ny,
        outOfImage img px py = false ->
        pixelIndex img px py ∈ vis' -> pixelIndex img px py ∉ vis ->
        (nx, ny) ∈ neighbours4 px py ->
        outOfImage img nx ny = false ->
        isRedAt img (pixelIndex img nx ny) = true ->
        pixelIndex img nx ny ∈ vis').
Proof.
  unfold findCluster in Hrun.
  destruct (fillLoop fuel img _) as [st|] eqn:Hloop; [|discriminate].
  injection Hrun as <- <-.
  destruct (fillLoop_invariant img vis sx sy fuel _ st
              (fillInvariant_initial img vis sx sy) Hloop)
    as [[Hg Hs Hsb Hbi Hbc Hf Hst] Hempty].
  rewrite Hempty in Hf, Hst.
  split; [done|]. split; [done|]. split.
  - intros Hin Hred. destruct Hst as [H|[H|[H|H]]]; [by apply elem_of_nil in H|done|..];
      congruence.
  - intros px py nx ny Hin Hv Hn0 Hnb Hnin Hnred.
    destruct (Hf px py nx ny Hin Hv Hn0 Hnb) as [H|[H|[H|H]]];
      [by apply elem_of_nil in H|done|..]; congruence.
Qed.

Lemma flood_fill_closed_under_neighbours_witness :
  findCluster (fillFuel tinyImage) tinyImage ∅ 0 0 = Some (mkRegion 0 0 1 1, {[0]})
  /\ (∅ : gset Z) ⊆ {[0]}.
Proof.
  assert (H : findCluster (fillFuel tinyImage) tinyImage ∅ 0 0
              = Some (mkRegion 0 0 1 1, {[0]})) by (vm_compute; reflexivity).
  split; [exact H|].
  destruct (flood_fill_closed_under_neighbours _ _ _ _ _ _ _ H) as [Hsub _]. exact Hsub.
Defined.

Lemma findCluster_box (fuel : nat) (img : ImageData)
    (vis vis' : gset Z) (sx sy : Z) (r : Region) :
  findCluster fuel img vis sx sy = Some (r, vis') ->
  1 <= width r /\ 1 <= height r
  /\ (x r <= sx < x r + width r /\ y r <= sy < y r + height r)
  /\ (outOfImage img sx sy = false -> insideImage img r)
  /\ (forall px py,
        outOfImage img px py = false ->
        pixelIndex img px py ∈ vis' -> pixelIndex img px py ∉ vis ->
        x r <= px < x r + width r /\ y r <= py < y r + height r).
Proof.
  intros Hrun. unfold findCluster in Hrun.
  destruct (fillLoop fuel img _) as [st|] eqn:Hloop; [|discriminate].
  injection Hrun as <- <-.
  destruct (fillLoop_invariant img vis sx sy fuel _ st
              (fillInvariant_initial img vis sx sy) Hloop)
    as [[Hg Hs Hsb Hbi Hbc Hf Hst] Hempty].
  cbn [x y width height]. split; [lia|]. split; [lia|]. split; [lia|]. split.
  - intros Hin. specialize (Hbi Hin). unfold insideImage. cbn [x y width height]. lia.
  - intros px py Hin Hv Hn0. specialize (Hbc px py Hin Hv Hn0). lia.
Qed.

(** X5. The box of a cluster.  It is at least one pixel wide and high and
    holds the start pixel; when the start pixel is inside the image the box
    is inside the image; and every pixel of the image visited by this fill
    lies in the box. *)
Theorem cluster_box_covers_cluster (fuel : nat) (img : ImageData)
    (vis vis' : gset Z) (sx sy : Z) (r : Region)
    (Hrun : findCluster fuel img vis sx sy = Some (r, vis')) :
  1 <= width r /\ 1 <= height r
  /\ (x r <= sx < x r + width r /\ y r <= sy < y r + height r)
  /\ (outOfImage img sx sy = false -> insideImage img r)
  /\ (forall px py,
        outOfImage img px py = false ->
        pixelIndex img px py ∈ vis' -> pixelIndex img px py ∉ vis ->
        x r <= px < x r + width r /\ y r <= py < y r + height r).
Proof. exact (findCluster_box fuel img vis vis' sx sy r Hrun). Qed.

Lemma cluster_box_covers_cluster_witness :
  findCluster (fillFuel tinyImage) tinyImage ∅ 0 0 = Some (mkRegion 0 0 1 1, {[0]})
  /\ 1 <= width (mkRegion 0 0 1 1).
Proof.
  assert (H : findCluster (fillFuel tinyImage) tinyImage ∅ 0 0
              = Some (mkRegion 0 0 1 1, {[0]})) by (vm_compute; reflexivity).
  split; [exact H|].
  destruct (cluster_box_covers_cluster _ _ _ _ _ _ _ H) as [Hw _]. exact Hw.
Defined.

End Clusters.

(** * What the merge step keeps *)

Section MergeGeometry.
Import Detect Geometry Scenarios.

Lemma contains_refl (r : Region) : contains r r.
Proof. unfold contains. lia. Qed.

Lemma contains_trans (a b c : Region) : contains a b -> contains b c -> contains a c.
Proof. unfold contains. lia. Qed.

Lemma mergeTwoRegions_contains (a b : Region) :
  contains (mergeTwoRegions a b) a /\ contains (mergeTwoRegions a b) b.
Proof. unfold contains, mergeTwoRegions. cbn [x y width height]. lia. Qed.



Variable regions : list Region.

Lemma mergeInner_fold_contains (js : list nat) (c c' : Region) (u u' : gset nat)
    (f f' : bool) :
  fold_left (mergeInner regions) js (c, u, f) = (c', u', f') ->
  contains c' c
  /\ forall j r, j ∈ u' -> j ∉ u -> regions !! j = Some r -> contains c' r.
Proof.
  revert c u f. induction js as [|j js IH]; intros c u f; cbn [fold_left].
  { intros [= <- <- <-]. split; [apply contains_refl|]. intros j r Hj Hn. done. }
  destruct (mergeInner regions (c, u, f) j) as [[c1 u1] f1] eqn:Hstep.
  intros Hfold. apply IH in Hfold as [Hc Hnew].
  unfold mergeInner in Hstep.
  destruct (bool_decide (j ∈ u)); [by injection Hstep as <- <- <-|].
  destruct (regions !! j) as [other|] eqn:Hlk; [|by injection Hstep as <- <- <-].
  destruct (regionsOverlap c other); [|by injection Hstep as <- <- <-].
  injection Hstep as <- <- <-.
  destruct (mergeTwoRegions_contains c other) as [H1 H2].
  split; [by eapply contains_trans|].
  intros k r Hk Hnk Hr.
  destruct (decide (k = j)) as [->|Hne].
  - rewrite Hlk in Hr. injection Hr as <-. by eapply contains_trans.
  - apply (Hnew k r); [done| |done]. set_solver.
Qed.

Lemma mergeWhile_contains (fuel : nat) (c c' : Region) (u u' : gset nat) :
  mergeWhile fuel regions c u = Some (c', u') ->
  u ⊆ u' /\ contains c' c
  /\ forall j r, j ∈ u' -> j ∉ u -> regions !! j = Some r -> contains c' r.
Proof.
  revert c u. induction fuel as [|fuel IH]; intros c u; [discriminate|].
  simpl. destruct (mergePass regions c u) as [[c1 u1] m] eqn:Hpass.
  pose proof Hpass as Hgeo. unfold mergePass in Hgeo.
  apply mergeInner_fold_contains in Hgeo as [Hc Hnew].
  apply mergePass_spec in Hpass as [Hsub _].
  destruct m.
  - intros Hw. apply IH in Hw as (Hsub' & Hc' & Hnew').
    split; [set_solver|]. split; [by eapply contains_trans|].
    intros j r Hj Hn Hr. destruct (decide (j ∈ u1)).
    + eapply contains_trans; [exact Hc'|]. by eapply Hnew.
    + by eapply Hnew'.
  - intros [= <- <-]. done.
Qed.

Lemma mergeWhile_used_in_range (fuel : nat) (c c' : Region) (u u' : gset nat) :
  mergeWhile fuel regions c u = Some (c', u') ->
  u' ⊆ u ∪ list_to_set (seq 0 (length regions)).
Proof.
  revert c u. induction fuel as [|fuel IH]; intros c u; [discriminate|].
  simpl. destruct (mergePass regions c u) as [[c1 u1] m] eqn:Hpass.
  unfold mergePass in Hpass. apply mergeInner_fold in Hpass as (_ & Hdom & _).
  destruct m.
  - intros Hw. apply IH in Hw. revert Hdom Hw.
    generalize (list_to_set (seq 0 (length regions)) : gset nat). set_solver.
  - by intros [= <- <-].
Qed.

Lemma mergeOuter_invariant (fuel : nat) (acc acc' : list Region * gset nat) (i : nat) :
  mergeInvariant regions acc ->
  mergeOuter fuel regions (Some acc) i = Some acc' ->
  mergeInvariant regions acc' /\ acc.2 ⊆ acc'.2 /\ ((i < length regions)%nat -> i ∈ acc'.2).
Proof.
  destruct acc as [merged used]. intros (Hcov & Hlen & Hdom). unfold mergeOuter.
  cbn [fst snd] in *.
  destruct (bool_decide (i ∈ used)) eqn:Hi.
  { intros [= <-]. apply bool_decide_eq_true in Hi. done. }
  apply bool_decide_eq_false in Hi.
  destruct (regions !! i) as [seed|] eqn:Hseed.
  2:{ intros [= <-]. split; [done|]. split; [done|].
      intros Hlt. apply lookup_ge_None in Hseed. lia. }
  destruct (mergeWhile fuel regions seed ({[i]} ∪ used)) as [[c u']|] eqn:Hw; [|discriminate].
  intros [= <-]. cbn [fst snd].
  pose proof (mergeWhile_used_in_range _ _ _ _ _ Hw) as Hrange.
  apply mergeWhile_contains in Hw as (Hsub & Hc & Hnew).
  assert (Hin : i ∈ (list_to_set (seq 0 (length regions)) : gset nat)).
  { apply elem_of_list_to_set, elem_of_seq. apply lookup_lt_Some in Hseed. lia. }
  split; [|split; [set_solver|intros _; set_solver]].
  unfold mergeInvariant. cbn [fst snd]. split; [|split].
  - intros j r Hj Hr. destruct (decide (j ∈ used)) as [Hju|Hju].
    + destruct (Hcov j r Hju Hr) as (m & Hm & Hmr). exists m. split; [|done].
      apply elem_of_app. by left.
    + exists c. split; [apply elem_of_app; right; apply list_elem_of_here|].
      destruct (decide (j = i)) as [->|Hne].
      * rewrite Hseed in Hr. by injection Hr as <-.
      * apply (Hnew j r); [done|set_solver|done].
  - rewrite length_app. cbn [length].
    assert (size ({[i]} ∪ used) <= size u')%nat by by apply subseteq_size.
    rewrite size_union, size_singleton in H by set_solver. lia.
  - revert Hrange Hdom Hin.
    generalize (list_to_set (seq 0 (length regions)) : gset nat). set_solver.
Qed.

Lemma mergeOuter_fold_invariant (fuel : nat) (idxs : list nat)
    (acc acc' : list Region * gset nat) :
  mergeInvariant regions acc ->
  fold_left (mergeOuter fuel regions) idxs (Some acc) = Some acc' ->
  mergeInvariant regions acc' /\ acc.2 ⊆ acc'.2
  /\ forall i, i ∈ idxs -> (i < length regions)%nat -> i ∈ acc'.2.
Proof.
  revert acc. induction idxs as [|i idxs IH]; intros acc Hinv; cbn [fold_left].
  { intros [= <-]. split; [done|]. split; [done|]. intros i Hi. by apply elem_of_nil in Hi. }
  destruct (mergeOuter fuel regions (Some acc) i) as [acc1|] eqn:Hstep.
  2:{ intros Hf. exfalso. clear -Hf. induction idxs as [|k idxs IHk]; [discriminate|].
      by apply IHk. }
  intros Hfold.
  apply mergeOuter_invariant in Hstep as (Hinv1 & Hsub1 & Hi1); [|done].
  apply IH in Hfold as (Hinv' & Hsub' & Hall); [|done].
  split; [done|]. split; [set_solver|].
  intros k Hk Hlt. apply elem_of_cons in Hk as [->|Hk]; [|by apply Hall].
  apply Hsub'. by apply Hi1.
Qed.

(** X7. Merging loses nothing and adds nothing: every input region lies
    within some output region, and there are at most as many output regions
    as input regions, none for an empty input and at least one otherwise. *)
Theorem merge_covers_every_input (out : list Region)
    (Hrun : mergeOverlappingRegions regions = Some out) :
  (forall r, r ∈ regions -> exists m, m ∈ out /\ contains m r)
  /\ (length out <= length regions)%nat
  /\ (regions = [] <-> out = []).
Proof.
  unfold mergeOverlappingRegions, mergeOverlappingRegionsFuel in Hrun.
  destruct regions as [|r0 rs] eqn:Hregs.
  { injection Hrun as <-. split; [|split; [done|done]].
    intros r Hr. by apply elem_of_nil in Hr. }
  rewrite <- Hregs in *.
  destruct (fold_left _ _ _) as [[merged used]|] eqn:Hfold; [|discriminate].
  injection Hrun as <-.
  apply mergeOuter_fold_invariant in Hfold as [Hinv [_ Hall]].
  1: destruct Hinv as (Hcov & Hlen & Hdom); cbn [fst snd] in *.
  2:{ split; [|split]; cbn [fst snd].
      - intros j r Hj. set_solver.
      - rewrite size_empty. simpl. lia.
      - set_solver. }
  assert (Hcover : forall r, r ∈ regions -> exists m, m ∈ merged /\ contains m r).
  { intros r Hr. apply list_elem_of_lookup in Hr as [j Hj].
    apply (Hcov j r); [|done]. apply Hall.
    - apply elem_of_seq. apply lookup_lt_Some in Hj. lia.
    - by apply lookup_lt_Some in Hj. }
  split; [exact Hcover|]. split.
  - etransitivity; [exact Hlen|].
    etransitivity; [apply (subseteq_size _ _ Hdom)|].
    rewrite size_list_to_set by apply NoDup_seq. by rewrite length_seq.
  - split; [by rewrite Hregs|]. intros ->.
    destruct (Hcover r0) as (m & Hm & _); [rewrite Hregs; apply list_elem_of_here|].
    by apply elem_of_nil in Hm.
Qed.

End MergeGeometry.

Lemma merge_covers_every_input_witness :
  Detect.mergeOverlappingRegions [Detect.mkRegion 0 0 10 10; Detect.mkRegion 5 5 10 10]
  = Some [Detect.mkRegion 0 0 15 15]
  /\ (length [Detect.mkRegion 0 0 15 15] <= 2)%nat.
Proof.
  assert (H : Detect.mergeOverlappingRegions
                [Detect.mkRegion 0 0 10 10; Detect.mkRegion 5 5 10 10]
              = Some [Detect.mkRegion 0 0 15 15]) by (vm_compute; reflexivity).
  split; [exact H|].
  destruct (merge_covers_every_input _ _ H) as (_ & Hlen & _). exact Hlen.
Defined.

Section MergeApart.
Import Detect Geometry.
Variable regions : list Region.
Hypothesis Hapart : forall i j ri rj,
  i <> j -> regions !! i = Some ri -> regions !! j = Some rj ->
  regionsOverlap ri rj = false.

Lemma mergeInner_idle (js : list nat) (i : nat) (seed : Region) (used : gset nat) :
  regions !! i = Some seed -> i ∈ used ->
  fold_left (mergeInner regions) js (seed, used, false) = (seed, used, false).
Proof.
  intros Hseed Hi. induction js as [|j js IH]; cbn [fold_left]; [done|].
  replace (mergeInner regions (seed, used, false) j) with (seed, used, false); [done|].
  unfold mergeInner. destruct (bool_decide (j ∈ used)) eqn:Hj; [done|].
  apply bool_decide_eq_false in Hj.
  destruct (regions !! j) as [other|] eqn:Hother; [|done].
  rewrite (Hapart i j seed other); [done| |done|done].
  intros ->. done.
Qed.

Lemma mergeOuter_apart (fuel : nat) (m k : nat) :
  (k + m <= length regions)%nat ->
  fold_left (mergeOuter (S fuel) regions) (seq k m)
            (Some (take k regions, list_to_set (seq 0 k)))
  = Some (take (k + m) regions, list_to_set (seq 0 (k + m))).
Proof.
  revert k. induction m as [|m IH]; intros k Hk; cbn [seq fold_left].
  { by rewrite Nat.add_0_r. }
  destruct (lookup_lt_is_Some_2 regions k ltac:(lia)) as [seed Hseed].
  replace (mergeOuter (S fuel) regions (Some (take k regions, list_to_set (seq 0 k))) k)
    with (Some (take (S k) regions, list_to_set (seq 0 (S k)) : gset nat)).
  { replace (k + S m)%nat with (S k + m)%nat by lia. apply IH. lia. }
  unfold mergeOuter.
  rewrite bool_decide_eq_false_2.
  2:{ rewrite elem_of_list_to_set, elem_of_seq. lia. }
  rewrite Hseed. cbn [mergeWhile]. unfold mergePass.
  rewrite (mergeInner_idle _ k) by (done || set_solver).
  f_equal. f_equal.
  - by apply take_S_r.
  - apply set_eq. intros j.
    rewrite elem_of_union, elem_of_singleton, !elem_of_list_to_set, !elem_of_seq. lia.
Qed.

(** X8. Regions that are pairwise apart come back unchanged, in the
    same order. *)
Theorem merge_keeps_regions_apart :
  mergeOverlappingRegions regions = Some regions.
Proof.
  unfold mergeOverlappingRegions, mergeOverlappingRegionsFuel, mergeFuel.
  pose proof (mergeOuter_apart (length regions) (length regions) 0 ltac:(lia)) as H.
  rewrite take_0 in H. cbn [Nat.add] in H. rewrite firstn_all in H.
  change (list_to_set (seq 0 0) : gset nat) with (∅ : gset nat) in H.
  revert H. generalize (list_to_set (seq 0 (length regions)) : gset nat).
  intros final H. destruct regions as [|r0 rs]; [done|]. by rewrite H.
Qed.

End MergeApart.

Lemma merge_keeps_regions_apart_witness :
  Detect.mergeOverlappingRegions [Detect.mkRegion 0 0 10 10; Detect.mkRegion 20 0 10 10]
  = Some [Detect.mkRegion 0 0 10 10; Detect.mkRegion 20 0 10 10].
Proof.
  apply merge_keeps_regions_apart.
  intros i j ri rj Hne Hi Hj.
  destruct i as [|[|i]], j as [|[|j]]; try done;
    injection Hi as <-; injection Hj as <-; reflexivity.
Defined.

Section DetectOutput.
Import Detect Geometry Scenarios.
Variable img : ImageData.

Lemma goodRegion_merge (a b : Region) :
  goodRegion img a -> goodRegion img b -> goodRegion img (mergeTwoRegions a b).
Proof.
  unfold goodRegion, insideImage, mergeTwoRegions. cbn [x y width height]. lia.
Qed.

Lemma mergeInner_fold_good (regions : list Region) (js : list nat) (c c' : Region)
    (u u' : gset nat) (f f' : bool) :
  Forall (goodRegion img) regions -> goodRegion img c ->
  fold_left (mergeInner regions) js (c, u, f) = (c', u', f') -> goodRegion img c'.
Proof.
  intros Hall. revert c u f. induction js as [|j js IH]; intros c u f Hc; cbn [fold_left].
  { by intros [= <- <- <-]. }
  destruct (mergeInner regions (c, u, f) j) as [[c1 u1] f1] eqn:Hstep.
  apply IH. unfold mergeInner in Hstep.
  destruct (bool_decide (j ∈ u)); [by injection Hstep as <- <- <-|].
  destruct (regions !! j) as [other|] eqn:Hlk; [|by injection Hstep as <- <- <-].
  destruct (regionsOverlap c other); [|by injection Hstep as <- <- <-].
  injection Hstep as <- <- <-. apply goodRegion_merge; [done|].
  rewrite Forall_forall in Hall. apply Hall. by eapply list_elem_of_lookup_2.
Qed.

Lemma mergeWhile_good (regions : list Region) (fuel : nat) (c c' : Region)
    (u u' : gset nat) :
  Forall (goodRegion img) regions -> goodRegion img c ->
  mergeWhile fuel regions c u = Some (c', u') -> goodRegion img c'.
Proof.
  intros Hall. revert c u. induction fuel as [|fuel IH]; intros c u Hc; [discriminate|].
  simpl. destruct (mergePass regions c u) as [[c1 u1] m] eqn:Hpass.
  unfold mergePass in Hpass. apply mergeInner_fold_good in Hpass; [|done|done].
  destruct m; [by apply IH|]. by intros [= <- <-].
Qed.

Lemma merge_good (regions out : list Region) (fuel : nat) :
  Forall (goodRegion img) regions ->
  mergeOverlappingRegionsFuel fuel regions = Some out -> Forall (goodRegion img) out.
Proof.
  intros Hall. unfold mergeOverlappingRegionsFuel.
  destruct regions as [|r0 rs] eqn:Hregs; [by intros [= <-]|]. rewrite <- Hregs in *.
  assert (Hfold : forall idxs acc acc',
            Forall (goodRegion img) acc.1 ->
            fold_left (mergeOuter fuel regions) idxs (Some acc) = Some acc' ->
            Forall (goodRegion img) acc'.1).
  { induction idxs as [|i idxs IH]; intros [merged used] acc' Hacc; cbn [fold_left].
    { by intros [= <-]. }
    destruct (mergeOuter fuel regions (Some (merged, used)) i) as [acc1|] eqn:Hstep.
    2:{ intros Hf. exfalso. clear -Hf. induction idxs as [|k idxs IHk]; [discriminate|].
        by apply IHk. }
    apply IH. unfold mergeOuter in Hstep.
    destruct (bool_decide (i ∈ used)); [by injection Hstep as <-|].
    destruct (regions !! i) as [seed|] eqn:Hseed; [|by injection Hstep as <-].
    destruct (mergeWhile fuel regions seed ({[i]} ∪ used)) as [[c u']|] eqn:Hw; [|discriminate].
    injection Hstep as <-. cbn [fst] in *. apply Forall_app. split; [done|].
    constructor; [|done].
    apply (mergeWhile_good regions fuel seed c ({[i]} ∪ used) u' Hall); [|exact Hw].
    rewrite Forall_forall in Hall. apply Hall. by eapply list_elem_of_lookup_2. }
  destruct (fold_left _ _ _) as [[merged used]|] eqn:Hf; [|discriminate].
  intros [= <-]. apply (Hfold (seq 0 (length regions)) ([], ∅) (merged, used)); [constructor|exact Hf].
Qed.

Lemma stride2_range (n v : Z) : In v (stride2 n) -> 0 <= v < n.
Proof.
  unfold stride2. rewrite in_map_iff. intros (k & <- & Hk). apply in_seq in Hk.
  assert (Z.of_nat k < (n + 1) / 2) by lia.
  pose proof (Z.div_mod (n + 1) 2 ltac:(lia)).
  pose proof (Z.mod_pos_bound (n + 1) 2 ltac:(lia)). lia.
Qed.

Lemma scanPoints_inside (px py : Z) :
  In (px, py) (scanPoints img) -> outOfImage img px py = false.
Proof.
  unfold scanPoints. rewrite in_flat_map. intros (v & Hv & Hp).
  apply in_map_iff in Hp as (u & [= <- <-] & Hu).
  apply stride2_range in Hv, Hu. unfold outOfImage. lia.
Qed.

Lemma scan_good (fuel : nat) (pts : list (Z * Z)) (acc acc' : list Region * gset Z) :
  (forall p, In p pts -> outOfImage img p.1 p.2 = false) ->
  Forall (goodRegion img) acc.1 ->
  fold_left (scanStep fuel img) pts (Some acc) = Some acc' ->
  Forall (goodRegion img) acc'.1.
Proof.
  revert acc. induction pts as [|[px py] pts IH]; intros [regs vis] Hpts Hacc; cbn [fold_left].
  { by intros [= <-]. }
  destruct (scanStep fuel img (Some (regs, vis)) (px, py)) as [acc1|] eqn:Hstep.
  2:{ intros Hf. exfalso. clear -Hf. induction pts as [|k pts IHk]; [discriminate|].
      by apply IHk. }
  apply IH; [intros p Hp; apply Hpts; by right|].
  unfold scanStep in Hstep.
  destruct (isRedAt img _ && _); [|by injection Hstep as <-].
  destruct (findCluster fuel img vis px py) as [[region vis']|] eqn:Hc; [|discriminate].
  destruct ((5 <? width region) && (5 <? height region)) eqn:Hbig;
    injection Hstep as <-; [|done].
  cbn [fst] in *. apply Forall_app. split; [done|]. constructor; [|done].
  apply findCluster_box in Hc as (_ & _ & _ & Hin & _).
  split; [|lia]. apply Hin. apply (Hpts (px, py)). by left.
Qed.

(** X9. Every region returned by the canvas strategy lies inside the
    image and is more than 5 pixels wide and more than 5 pixels high. *)
Theorem detected_regions_inside_image (regions : list Region)
    (Hrun : detectRedRegions img = Some regions) :
  Forall (fun r => insideImage img r /\ 5 < width r /\ 5 < height r) regions.
Proof.
  unfold detectRedRegions in Hrun.
  destruct (fold_left _ _ _) as [[regs vis]|] eqn:Hscan; [|discriminate].
  apply (merge_good regs _ _) in Hrun; [exact Hrun|].
  apply (scan_good (fillFuel img) (scanPoints img) ([], ∅) (regs, vis));
    [|constructor|exact Hscan].
  intros [px py] Hp. by apply scanPoints_inside.
Qed.

End DetectOutput.

Lemma detected_regions_inside_image_witness :
  Detect.detectRedRegions Scenarios.cornerImage
  = Some [Scenarios.boxM; Detect.mkRegion 0 2 41 39]
  /\ Forall (fun r => Geometry.insideImage Scenarios.cornerImage r
                      /\ 5 < Detect.width r /\ 5 < Detect.height r)
            [Scenarios.boxM; Detect.mkRegion 0 2 41 39].
Proof.
  assert (H : Detect.detectRedRegions Scenarios.cornerImage
              = Some [Scenarios.boxM; Detect.mkRegion 0 2 41 39])
    by (vm_compute; reflexivity).
  split; [exact H|]. exact (detected_regions_inside_image _ _ H).
Defined.

(** * The month bound of the reconstructor *)

Section MonthBound.
Import Detect Parser Spec Calendar Scenarios.








End MonthBound.
